(** * Multi-sortable client table: the sort engine, the criteria store
      and the persistence boundary

    A shallow embedding of [lib/data.ts], [lib/sort-utils.ts],
    [components/sort-panel.tsx] (the four criteria handlers) and
    [app/page.tsx] (the load and save effects), followed by the
    properties of the specification that concern them. *)

From Stdlib Require Import ZArith Lia Ascii DecimalString Sorting.Sorted
  Structures.OrderedTypeEx.
From stdpp Require Import base list gmap strings sorting pretty.

Local Open Scope Z_scope.
Local Set Warnings "-register-all".

(** ** Data model ([lib/data.ts], [lib/sort-utils.ts]) *)

(** [Client.status] is one of four string literals. *)
Inductive Status := active | inactive | pending | suspended.

Definition statusText (s : Status) : string :=
  match s with
  | active => "active"
  | inactive => "inactive"
  | pending => "pending"
  | suspended => "suspended"
  end.

(** The numbers the comparator computes with: integers (time values,
    collation results, differences, [-1], [0], [1]) and [NaN]. *)
Inductive number :=
  | Num (n : Z)
  | NaN.

(** A [Date] holds a time value: an integer number of milliseconds since
    the epoch, between -8.64e15 and 8.64e15, or [NaN] - an Invalid Date,
    as [new Date("no date")] is.  Every [Date] object is truthy. *)
Inductive Date :=
  | DateAt (t : Z)
  | InvalidDate.

Definition getTime (d : Date) : number :=
  match d with
  | DateAt t => Num t
  | InvalidDate => NaN
  end.

(** The declared type of [createdAt] and [updatedAt] is [Date], but
    [applyMultiSort] tests the property for truthiness first, so an absent
    ([undefined] or [null]) timestamp is part of the model: [None]. *)
Record Client := {
  client_id : string;
  name : string;
  email : string;
  createdAt : option Date;
  updatedAt : option Date;
  status : Status
}.

(** The field descriptor table [clientFields]. *)
Record FieldDescriptor := {
  fd_id : string;
  label : string;
  type : string
}.

Definition clientFields : list FieldDescriptor :=
  [ {| fd_id := "name"; label := "Name"; type := "string" |};
    {| fd_id := "email"; label := "Email"; type := "string" |};
    {| fd_id := "createdAt"; label := "Created At"; type := "date" |};
    {| fd_id := "updatedAt"; label := "Updated At"; type := "date" |};
    {| fd_id := "status"; label := "Status"; type := "string" |} ].

(** [SortCriterion].  At run time [field] and [direction] are plain
    strings: the union types [ClientFieldId] and [SortDirection] are erased,
    and a sequence restored from storage is not checked against them. *)
Record SortCriterion := {
  id : string;
  field : string;
  direction : string
}.

(** ** Values seen by the comparator *)

(** What the comparator's local variables [valA] and [valB] can hold. *)
Inductive jsval :=
  | VUndefined
  | VString (s : string)
  | VNumber (n : number).

(** Arithmetic on numbers.  A difference of two integers is rounded as a
    double is: to 53 significant bits, to the nearest, ties to the even
    mantissa.  Differences of time values reach 1.728e16, past 2^53,
    where not every integer is a double. *)
Definition roundDouble (d : Z) : Z :=
  let a := Z.abs d in
  if a <? 2 ^ 53 then d
  else
    let e := Z.log2 a - 52 in
    let q := a / 2 ^ e in
    let r := a mod 2 ^ e in
    let half := 2 ^ (e - 1) in
    let q' :=
      if r <? half then q
      else if half <? r then q + 1
      else if Z.even q then q else q + 1 in
    Z.sgn d * (q' * 2 ^ e).

(** [x - y]. *)
Definition numSub (x y : number) : number :=
  match x, y with
  | Num a, Num b => Num (roundDouble (a - b))
  | _, _ => NaN
  end.

(** [-x]. *)
Definition numNeg (x : number) : number :=
  match x with
  | Num a => Num (- a)
  | NaN => NaN
  end.

(** [x !== 0]: true of [NaN]. *)
Definition notZero (x : number) : bool :=
  match x with
  | Num a => negb (a =? 0)
  | NaN => true
  end.

(** The own properties of a record that hold text: [a[key]] for a [key]
    other than the two timestamp properties.  A key that names no own
    property reads as [undefined].  (A key inherited from
    [Object.prototype] reads the same object for every record, which the
    comparator finds neither less nor greater than itself: it compares
    like [undefined].) *)
Definition textProp (a : Client) (key : string) : option string :=
  if String.eqb key "id" then Some (client_id a)
  else if String.eqb key "name" then Some (name a)
  else if String.eqb key "email" then Some (email a)
  else if String.eqb key "status" then Some (statusText (status a))
  else None.

(** [a[field]] for [field] one of ["createdAt"], ["updatedAt"]. *)
Definition dateProp (a : Client) (key : string) : option Date :=
  if String.eqb key "createdAt" then createdAt a else updatedAt a.

Definition isDateField (key : string) : bool :=
  String.eqb key "createdAt" || String.eqb key "updatedAt".

(** Lines 48-55: the value a criterion compares.  For a timestamp field,
    [a[field] ? a[field].getTime() : 0]: the time value of the date -
    [NaN] for an Invalid Date - and [0] when the property is falsy.  Any
    other field yields the property as it is. *)
Definition sortValue (a : Client) (field : string) : jsval :=
  if isDateField field then
    match dateProp a field with
    | Some d => VNumber (getTime d)
    | None => VNumber (Num 0)
    end
  else
    match textProp a field with
    | Some s => VString s
    | None => VUndefined
    end.

(** The two host functions the comparator relies on:
    [String.prototype.localeCompare], a collation of the host locale, and
    the string-to-number conversion that the relational operators apply to
    a string operand facing a number ([None] stands for [NaN]). *)
Record Host := {
  localeCompare : string -> string -> Z;
  stringToNumber : string -> option Z
}.

Section Evaluator.
Variable host : Host.

Definition toNumber (v : jsval) : number :=
  match v with
  | VUndefined => NaN
  | VString s =>
      match stringToNumber host s with
      | Some n => Num n
      | None => NaN
      end
  | VNumber n => n
  end.

(** The relational operator [x < y]: two strings are compared by code
    units, anything else numerically, and a [NaN] operand makes the result
    false. *)
Definition jsLt (x y : jsval) : bool :=
  match x, y with
  | VString s1, VString s2 => String.ltb s1 s2
  | _, _ =>
      match toNumber x, toNumber y with
      | Num n1, Num n2 => n1 <? n2
      | _, _ => false
      end
  end.

(** Lines 57-71: the raw comparison of two values.  [typeof NaN] is
    ["number"]: two numbers are subtracted, [NaN] or not. *)
Definition compareValues (valA valB : jsval) : number :=
  match valA, valB with
  | VString s1, VString s2 => Num (localeCompare host s1 s2)
  | VNumber n1, VNumber n2 => numSub n1 n2
  | _, _ =>
      if jsLt valA valB then Num (-1)
      else if jsLt valB valA then Num 1
      else Num 0
  end.

(** The raw comparison of two records on one field. *)
Definition fieldCompare (field : string) (a b : Client) : number :=
  compareValues (sortValue a field) (sortValue b field).

(** Lines 38-81: the comparator handed to [sort].  The [for] loop returns at
    the first criterion whose comparison is not zero - a [NaN] is not -
    after applying the direction; when the loop runs out the result is
    [0]. *)
Fixpoint compareClients (criteria : list SortCriterion) (a b : Client)
    : number :=
  match criteria with
  | [] => Num 0
  | criterion :: rest =>
      let comparison := fieldCompare (field criterion) a b in
      if notZero comparison then
        if String.eqb (direction criterion) "asc" then comparison
        else numNeg comparison
      else compareClients rest a b
  end.

End Evaluator.

(** ** [Array.prototype.sort] *)

(** What [sort] makes of the comparator's answer: [NaN] counts as [0]. *)
Definition sortCompare (v : number) : Z :=
  match v with
  | Num n => n
  | NaN => 0
  end.

(** The host's sort is stable.  It is modelled by a stable insertion sort:
    an element moves right only past elements it compares strictly greater
    than.  For a consistent comparator every stable sort returns the same
    sequence ([jsSort_unique] below), so the choice of algorithm is not
    observable; for an inconsistent one the language leaves the order to
    the implementation. *)
Section Sort.
Context {A : Type}.
Variable compareFn : A -> A -> Z.

Fixpoint sortInsert (x : A) (l : list A) : list A :=
  match l with
  | [] => [x]
  | y :: l' => if 0 <? compareFn x y then y :: sortInsert x l' else x :: l
  end.

Fixpoint jsSort (l : list A) : list A :=
  match l with
  | [] => []
  | x :: l' => sortInsert x (jsSort l')
  end.

End Sort.

(** ** The evaluator ([lib/sort-utils.ts]) *)

(** The contents of the array [applyMultiSort] returns, as a function of
    the contents of its arguments. *)
Definition applyMultiSort (host : Host)
    (clients : list Client) (criteria : list SortCriterion) : list Client :=
  if (length criteria =? 0)%nat then clients
  else
    jsSort (fun a b => sortCompare (compareClients host criteria a b)) clients.

(** Arrays are objects with an identity.  A heap maps the reference of an
    array to its contents; records are immutable and stored by value. *)
Abbreviation heap := (gmap nat (list Client)).

(** [[...clients]]: a new array with the elements of [clients]. *)
Definition spread (r : nat) (h : heap) : option (nat * heap) :=
  match h !! r with
  | Some l => let r' := fresh (dom h) in Some (r', <[r' := l]> h)
  | None => None
  end.

(** [arr.sort(compareFn)] sorts [arr] in place and returns [arr]. *)
Definition sortInPlace (compareFn : Client -> Client -> Z)
    (r : nat) (h : heap) : option (nat * heap) :=
  match h !! r with
  | Some l => Some (r, <[r := jsSort compareFn l]> h)
  | None => None
  end.

(** [applyMultiSort] on references: the result is the reference returned
    and the heap after the call; [None] only when [clients] is not an
    array of the heap. *)
Definition applyMultiSortH (host : Host) (clients : nat)
    (criteria : list SortCriterion) (h : heap) : option (nat * heap) :=
  if (length criteria =? 0)%nat then spread clients h
  else
    match spread clients h with
    | Some (copy, h') =>
        sortInPlace (fun a b => sortCompare (compareClients host criteria a b))
          copy h'
    | None => None
    end.

(** How a call ends.  The body of [applyMultiSort] has no [throw], reads
    properties of records only, and calls [localeCompare] on strings,
    [getTime] on dates and subtraction on numbers only: every call
    completes normally, whatever the criteria name.  [SortError] lists
    the two failures the specification speaks of. *)
Inductive SortError := InvalidFieldKind | UnknownField.

Inductive completion (A : Type) :=
  | Returned (value : A)
  | Raised (e : SortError).
Arguments Returned {A} value.
Arguments Raised {A} e.

Definition applyMultiSort_completion (host : Host)
    (clients : list Client) (criteria : list SortCriterion)
    : completion (list Client) :=
  Returned (applyMultiSort host clients criteria).

(** ** The criteria store ([components/sort-panel.tsx]) *)

(** [Array.prototype.findIndex]; [None] stands for [-1]. *)
Fixpoint findIndex {A} (p : A -> bool) (l : list A) : option nat :=
  match l with
  | [] => None
  | x :: l' => if p x then Some 0%nat else S <$> findIndex p l'
  end.

(** [arr.splice(index, 0, item)]: insert [item] before position [index],
    at the end when [index] is past the end. *)
Definition spliceIn {A} (index : nat) (item : A) (l : list A) : list A :=
  take index l ++ item :: drop index l.

(** [handleDragEnd]: [activeId] is [active.id], [overId] is [over?.id]
    ([None] when the item is dropped outside every target).  The function
    returns the sequence handed to [onSortCriteriaChange], or the current
    one when the callback is not called. *)
Definition handleDragEnd (activeId : string) (overId : option string)
    (sortCriteria : list SortCriterion) : list SortCriterion :=
  if bool_decide (Some activeId <> overId) then
    let oldIndex := findIndex (fun c => String.eqb (id c) activeId) sortCriteria in
    let newIndex :=
      match overId with
      | Some o => findIndex (fun c => String.eqb (id c) o) sortCriteria
      | None => None
      end in
    match oldIndex, newIndex with
    | Some i, Some j =>
        match sortCriteria !! i with
        | Some movedItem => spliceIn j movedItem (delete i sortCriteria)
        | None => sortCriteria
        end
    | _, _ => sortCriteria
    end
  else sortCriteria.

(** The identity given to a new criterion: [`sort-${Date.now()}-${field}`]. *)
Definition newId (now : Z) (selectedField : string) : string :=
  "sort-" +:+ pretty now +:+ "-" +:+ selectedField.

(** [handleAddField]; [now] is the reading of [Date.now()], and
    [selectedField] the field chosen in the select input ([""] when none
    is chosen). *)
Definition handleAddField (now : Z) (selectedField : string)
    (sortCriteria : list SortCriterion) : list SortCriterion :=
  if negb (String.eqb selectedField "") &&
     negb (existsb (fun c => String.eqb (field c) selectedField) sortCriteria)
  then
    sortCriteria ++
      [ {| id := newId now selectedField;
           field := selectedField;
           direction := "asc" |} ]
  else sortCriteria.

(** [handleRemoveCriterion]. *)
Definition handleRemoveCriterion (target : string)
    (sortCriteria : list SortCriterion) : list SortCriterion :=
  List.filter (fun c => negb (String.eqb (id c) target)) sortCriteria.

(** [handleToggleDirection]. *)
Definition handleToggleDirection (target : string)
    (sortCriteria : list SortCriterion) : list SortCriterion :=
  List.map
    (fun c =>
       if String.eqb (id c) target then
         {| id := id c;
            field := field c;
            direction :=
              if String.eqb (direction c) "asc" then "desc" else "asc" |}
       else c)
    sortCriteria.

(** [availableFields]. *)
Definition availableFields (sortCriteria : list SortCriterion)
    : list FieldDescriptor :=
  List.filter
    (fun f => negb (existsb (fun c => String.eqb (field c) (fd_id f)) sortCriteria))
    clientFields.

(** The public operations of the store, and a run of them from the empty
    sequence. *)
Inductive StoreOp :=
  | OpAdd (now : Z) (selectedField : string)
  | OpRemove (target : string)
  | OpToggle (target : string)
  | OpReorder (activeId : string) (overId : option string).

Definition applyOp (sortCriteria : list SortCriterion) (op : StoreOp)
    : list SortCriterion :=
  match op with
  | OpAdd now f => handleAddField now f sortCriteria
  | OpRemove target => handleRemoveCriterion target sortCriteria
  | OpToggle target => handleToggleDirection target sortCriteria
  | OpReorder a o => handleDragEnd a o sortCriteria
  end.

Definition runOps (ops : list StoreOp) : list SortCriterion :=
  fold_left applyOp ops [].

(** ** The persistence boundary ([app/page.tsx]) *)

(** The values [JSON.parse] produces.  The properties of an object are
    listed in order and have distinct keys; numbers are integers (the
    load effect only tests a number for being zero). *)
Inductive json :=
  | JNull
  | JBool (b : bool)
  | JNumber (n : Z)
  | JString (s : string)
  | JArray (items : list json)
  | JObject (props : list (string * json)).

(** What [localStorage.getItem(LOCAL_STORAGE_KEY)] returns.
    [JSON.stringify] and [JSON.parse] belong to the host and are inverse
    to each other on these values, so a stored text is represented by the
    value it parses to.  (The call of [getItem] stands before the [try]:
    a storage that refuses access makes it throw, and nothing catches
    that.  The model starts from what [getItem] returns.) *)
Inductive storedItem :=
  | NoItem
  | EmptyText
  | Unparsable
  | JsonText (parsed : json).

(** The object [JSON.stringify] writes for a criterion. *)
Definition criterionJson (c : SortCriterion) : json :=
  JObject [ ("id", JString (id c));
            ("field", JString (field c));
            ("direction", JString (direction c)) ].

(** The save effect: [setItem(KEY, JSON.stringify(sortCriteria))]. *)
Definition saveCriteria (sortCriteria : list SortCriterion) : storedItem :=
  JsonText (JArray (criterionJson <$> sortCriteria)).

(** Reading a property: [None] is [undefined]; [TypeError] on [null]. *)
Inductive propRead :=
  | PropValue (v : option json)
  | TypeError.

Fixpoint assoc (key : string) (props : list (string * json)) : option json :=
  match props with
  | [] => None
  | (k, v) :: rest => if String.eqb k key then Some v else assoc key rest
  end.

Definition getProp (c : json) (key : string) : propRead :=
  match c with
  | JNull => TypeError
  | JObject props => PropValue (assoc key props)
  | _ => PropValue None
  end.

(** [ToBoolean]. *)
Definition truthy (v : option json) : bool :=
  match v with
  | None => false
  | Some JNull => false
  | Some (JBool b) => b
  | Some (JNumber n) => negb (n =? 0)
  | Some (JString s) => negb (String.eqb s "")
  | Some (JArray _) => true
  | Some (JObject _) => true
  end.

(** The callback [(c) => c.id && c.field && c.direction], as [every]
    reads it: [Some b] is its result converted to a boolean, [None] a
    [TypeError]. *)
Definition expectedProps (c : json) : option bool :=
  match getProp c "id" with
  | TypeError => None
  | PropValue v1 =>
      if truthy v1 then
        match getProp c "field" with
        | TypeError => None
        | PropValue v2 =>
            if truthy v2 then
              match getProp c "direction" with
              | TypeError => None
              | PropValue v3 => Some (truthy v3)
              end
            else Some false
        end
      else Some false
  end.

(** [Array.prototype.every]: stops at the first element the callback
    rejects, and lets an exception of the callback through. *)
Fixpoint every (callback : json -> option bool) (items : list json)
    : option bool :=
  match items with
  | [] => Some true
  | c :: rest =>
      match callback c with
      | None => None
      | Some false => Some false
      | Some true => every callback rest
      end
  end.

(** How the load effect ends: the parsed array is handed to
    [setSortCriteria]; or the item is removed after [console.warn] (the
    validation failed) or after [console.error] (an exception was caught);
    or nothing is done. *)
Inductive loadOutcome :=
  | Restored (parsedCriteria : list json)
  | DiscardedWarn
  | DiscardedError
  | NothingDone.

(** The load effect, lines 28-50. *)
Definition loadCriteria (savedCriteria : storedItem) : loadOutcome :=
  match savedCriteria with
  | NoItem => NothingDone
  | EmptyText => NothingDone
  | Unparsable => DiscardedError
  | JsonText (JArray parsedCriteria) =>
      match every expectedProps parsedCriteria with
      | Some true => Restored parsedCriteria
      | Some false => DiscardedWarn
      | None => DiscardedError
      end
  | JsonText _ => DiscardedWarn
  end.

(** The criteria sequence after the load effect: the initial state is the
    empty sequence, replaced only by [setSortCriteria]. *)
Definition criteriaAfterLoad (o : loadOutcome) : list json :=
  match o with
  | Restored parsedCriteria => parsedCriteria
  | _ => []
  end.

(** The stored item after the load effect. *)
Definition storageAfterLoad (savedCriteria : storedItem) (o : loadOutcome)
    : storedItem :=
  match o with
  | DiscardedWarn | DiscardedError => NoItem
  | _ => savedCriteria
  end.

(** A parsed object seen at its declared type [SortCriterion]: defined
    when the three properties are strings. *)
Definition asCriterion (c : json) : option SortCriterion :=
  match getProp c "id", getProp c "field", getProp c "direction" with
  | PropValue (Some (JString i)), PropValue (Some (JString f)),
    PropValue (Some (JString d)) =>
      Some {| id := i; field := f; direction := d |}
  | _, _, _ => None
  end.

(** What the specification asks of a persisted element: a non-empty
    identity, a field of the descriptor table, a direction among
    ["asc"] and ["desc"]. *)
Definition specValidElement (c : json) : bool :=
  match asCriterion c with
  | Some sc =>
      negb (String.eqb (id sc) "") &&
      existsb (fun f => String.eqb (fd_id f) (field sc)) clientFields &&
      (String.eqb (direction sc) "asc" || String.eqb (direction sc) "desc")
  | None => false
  end.

(** What the load effect asks of a persisted element: an object (or any
    value but [null]) whose [id], [field] and [direction] are truthy. *)
Definition truthyElement (c : json) : bool :=
  match c with
  | JObject props =>
      truthy (assoc "id" props) && truthy (assoc "field" props) &&
      truthy (assoc "direction" props)
  | _ => false
  end.

(** ** Notions used to state the properties *)

(** A consistent comparator: swapping the arguments flips the sign of the
    result, and "not after" is transitive.  The language standard asks
    this of [localeCompare]. *)
Record Consistent {A : Type} (compareFn : A -> A -> Z) : Prop := {
  compare_swap : forall a b, Z.sgn (compareFn b a) = - Z.sgn (compareFn a b);
  compare_trans :
    forall a b c, compareFn a b <= 0 -> compareFn b c <= 0 -> compareFn a c <= 0
}.

(** The comparison of one criterion with its direction applied:
    ascending keeps the sign, descending negates it. *)
Definition directed (host : Host) (c : SortCriterion) (a b : Client)
    : number :=
  if String.eqb (direction c) "asc" then fieldCompare host (field c) a b
  else numNeg (fieldCompare host (field c) a b).

Global Instance number_eq_dec : EqDecision number.
Proof. solve_decision. Defined.

(** [a] and [b] compare equal under every criterion of the list. *)
Definition tied (host : Host) (criteria : list SortCriterion)
    (a b : Client) : Prop :=
  Forall (fun c => fieldCompare host (field c) a b = Num 0) criteria.

Global Instance tied_dec host criteria a b : Decision (tied host criteria a b).
Proof. unfold tied. apply _. Defined.

(** [a] comes before [b] in priority order: some criterion puts [a]
    first - its comparison is a negative number - and all criteria of
    higher priority compare them equal. *)
Definition lexBefore (host : Host) (criteria : list SortCriterion)
    (a b : Client) : Prop :=
  exists higher c lower z,
    criteria = higher ++ c :: lower /\
    tied host higher a b /\
    directed host c a b = Num z /\ z < 0.

(** The record holds no Invalid Date under [key]. *)
Definition validUnder (key : string) (a : Client) : Prop :=
  isDateField key = true -> dateProp a key <> Some InvalidDate.

(** The record holds no Invalid Date under any field the criteria name. *)
Definition datesValid (criteria : list SortCriterion) (a : Client) : Prop :=
  Forall (fun c => validUnder (field c) a) criteria.

(** The record with its Invalid Dates taken away, and the comparisons of
    such records as [sort] reads them; they serve the proofs, where they
    stand for the comparator on records that hold no Invalid Date. *)
Definition dropInvalid (d : option Date) : option Date :=
  match d with
  | Some InvalidDate => None
  | other => other
  end.

Definition sanitize (a : Client) : Client :=
  {| client_id := client_id a; name := name a; email := email a;
     createdAt := dropInvalid (createdAt a);
     updatedAt := dropInvalid (updatedAt a);
     status := status a |}.

Definition refField (host : Host) (key : string) (a b : Client) : Z :=
  sortCompare (fieldCompare host key (sanitize a) (sanitize b)).

Definition refDirected (host : Host) (c : SortCriterion) (a b : Client) : Z :=
  if String.eqb (direction c) "asc" then refField host (field c) a b
  else - refField host (field c) a b.

Fixpoint refCompare (host : Host) (criteria : list SortCriterion)
    (a b : Client) : Z :=
  match criteria with
  | [] => 0
  | c :: rest =>
      if negb (refDirected host c a b =? 0) then refDirected host c a b
      else refCompare host rest a b
  end.

(** The names of the properties a record has. *)
Definition propertyNames : list string :=
  ["id"; "name"; "email"; "createdAt"; "updatedAt"; "status"].

(** The record [a] has no value under [key]: the property does not exist,
    or it is a timestamp that is missing. *)
Definition absentFrom (key : string) (a : Client) : Prop :=
  if isDateField key then dateProp a key = None else textProp a key = None.

(** [key] is the identifier of a descriptor of [clientFields]. *)
Definition hasDescriptor (key : string) : bool :=
  existsb (fun f => String.eqb (fd_id f) key) clientFields.

(** The instant a timestamp field is compared at: the time value of the
    date, [0] when the timestamp is missing. *)
Definition instantOf (a : Client) (key : string) : number :=
  match dateProp a key with
  | Some d => getTime d
  | None => Num 0
  end.

(** Strings of decimal digits, the shape of a printed clock reading. *)
Definition isDigit (a : ascii) : bool :=
  (48 <=? nat_of_ascii a)%nat && (nat_of_ascii a <=? 57)%nat.

Fixpoint digits (s : string) : bool :=
  match s with
  | EmptyString => true
  | String a s' => isDigit a && digits s'
  end.

(** The identity of [c] is one the store generates for the field of [c]. *)
Definition generatedId (c : SortCriterion) : Prop :=
  exists now, id c = newId now (field c).

(** A host whose collation is the order of code units and which reads
    strings of decimal digits as numbers; used to run the definitions on
    concrete inputs. *)
Definition codeUnitCompare (s1 s2 : string) : Z :=
  match String.compare s1 s2 with
  | Lt => -1
  | Eq => 0
  | Gt => 1
  end.

Definition decimalToNumber (s : string) : option Z :=
  match NilEmpty.uint_of_string s with
  | Some d => Some (Z.of_uint d)
  | None => None
  end.

Definition codeUnitHost : Host :=
  {| localeCompare := codeUnitCompare; stringToNumber := decimalToNumber |}.

(** ** Concrete inputs *)

(** A running example: Bob and two Amys, sorted by name ascending and
    then by creation time descending. *)
Definition bob : Client :=
  {| client_id := "1"; name := "Bob"; email := "bob@example.com";
     createdAt := Some (DateAt 1000); updatedAt := Some (DateAt 5000);
     status := active |}.

Definition amy_old : Client :=
  {| client_id := "2"; name := "Amy"; email := "amy@example.com";
     createdAt := Some (DateAt 1000); updatedAt := Some (DateAt 5000);
     status := pending |}.

Definition amy_new : Client :=
  {| client_id := "3"; name := "Amy"; email := "amy2@example.com";
     createdAt := Some (DateAt 2000); updatedAt := Some (DateAt 5000);
     status := active |}.

Definition by_name_then_newest : list SortCriterion :=
  [ {| id := "sort-1-name"; field := "name"; direction := "asc" |};
    {| id := "sort-2-createdAt"; field := "createdAt"; direction := "desc" |} ].

Definition bogus_criterion : SortCriterion :=
  {| id := "sort-1-bogus"; field := "bogus"; direction := "asc" |}.

Definition by_created_asc : SortCriterion :=
  {| id := "sort-3-createdAt"; field := "createdAt"; direction := "asc" |}.

Definition by_created_desc : SortCriterion :=
  {| id := "sort-4-createdAt"; field := "createdAt"; direction := "desc" |}.

(** A record created one second before the epoch, and one whose creation
    time is missing. *)
Definition pre_epoch : Client :=
  {| client_id := "4"; name := "Cy"; email := "cy@example.com";
     createdAt := Some (DateAt (-1000)); updatedAt := Some (DateAt 5000);
     status := inactive |}.

Definition undated : Client :=
  {| client_id := "5"; name := "Di"; email := "di@example.com";
     createdAt := None; updatedAt := Some (DateAt 5000); status := suspended |}.

(** A record created at the epoch itself. *)
Definition at_epoch : Client :=
  {| client_id := "6"; name := "Ed"; email := "ed@example.com";
     createdAt := Some (DateAt 0); updatedAt := Some (DateAt 5000);
     status := active |}.

(** Records whose creation time is an Invalid Date. *)
Definition bob_invalid : Client :=
  {| client_id := "7"; name := "Bob"; email := "bob@example.com";
     createdAt := Some InvalidDate; updatedAt := Some (DateAt 5000);
     status := active |}.

Definition amy_invalid : Client :=
  {| client_id := "8"; name := "Amy"; email := "amy@example.com";
     createdAt := Some InvalidDate; updatedAt := Some (DateAt 5000);
     status := active |}.

Definition by_created_then_name : list SortCriterion :=
  [ {| id := "sort-3-createdAt"; field := "createdAt"; direction := "asc" |};
    {| id := "sort-5-name"; field := "name"; direction := "asc" |} ].

(** A persisted value whose only element names no field of the table
    and no direction. *)
Definition rogue_element : json :=
  JObject [ ("id", JString "x");
            ("field", JString "bogus");
            ("direction", JString "sideways") ].

Definition rogue_item : storedItem := JsonText (JArray [rogue_element]).

(** A persisted element whose three properties are truthy and none of
    them a string. *)
Definition untyped_element : json :=
  JObject [ ("id", JNumber 7);
            ("field", JBool true);
            ("direction", JArray []) ].

(** ** Further parts of the panel, and notions to speak of them *)

(** [SortableItem], line 65: the label shown for a criterion,
    [clientFields.find((f) => f.id === criterion.field)?.label
     || criterion.field]. *)
Definition fieldLabel (criterion : SortCriterion) : string :=
  match List.find (fun f => String.eqb (fd_id f) (field criterion)) clientFields with
  | Some f => if String.eqb (label f) "" then field criterion else label f
  | None => field criterion
  end.

(** Two criteria ask for the same ordering: they name the same field, and
    both are ascending or neither is. *)
Definition sameOrdering (c c' : SortCriterion) : Prop :=
  field c = field c' /\ (direction c = "asc" <-> direction c' = "asc").

(** None of the three properties of the criterion is the empty string. *)
Definition nonEmptyProps (c : SortCriterion) : Prop :=
  id c <> "" /\ field c <> "" /\ direction c <> "".

Global Instance nonEmptyProps_dec c : Decision (nonEmptyProps c).
Proof. unfold nonEmptyProps. apply _. Defined.

(** The direction is one of the two the type [SortDirection] allows. *)
Definition knownDirection (c : SortCriterion) : Prop :=
  direction c = "asc" \/ direction c = "desc".

(** A criterion as a restored sequence may hold it: a direction that is
    neither ["asc"] nor ["desc"]. *)
Definition by_name_sideways : SortCriterion :=
  {| id := "x"; field := "name"; direction := "sideways" |}.

Definition by_name_desc : SortCriterion :=
  {| id := "sort-9-name"; field := "name"; direction := "desc" |}.

(** ** Facts about the sort *)

Section SortFacts.
Context {A : Type}.
Variable compareFn : A -> A -> Z.

Lemma sortInsert_perm x l : sortInsert compareFn x l ≡ₚ x :: l.
Proof.
  induction l as [|y l IH]; simpl; [done|].
  destruct (0 <? compareFn x y); [|done].
  rewrite IH. apply Permutation_swap.
Qed.

Lemma jsSort_perm l : jsSort compareFn l ≡ₚ l.
Proof.
  induction l as [|x l IH]; simpl; [done|].
  by rewrite sortInsert_perm, IH.
Qed.

Lemma jsSort_length l : length (jsSort compareFn l) = length l.
Proof. by rewrite jsSort_perm. Qed.

(** A comparator that never answers "after" leaves every array as it is. *)
Lemma jsSort_no_swap l :
  (forall a b, compareFn a b <= 0) -> jsSort compareFn l = l.
Proof.
  intros Hle. induction l as [|x l IH]; simpl; [done|].
  rewrite IH. destruct l as [|y l]; simpl; [done|].
  destruct (Z.ltb_spec 0 (compareFn x y)) as [Hlt|_]; [|done].
  specialize (Hle x y). lia.
Qed.

Hypothesis consistent : Consistent compareFn.

Lemma compare_refl a : compareFn a a = 0.
Proof.
  pose proof (compare_swap _ consistent a a) as H.
  apply Z.sgn_null_iff. lia.
Qed.

Lemma compare_gt_lt a b : 0 < compareFn a b <-> compareFn b a < 0.
Proof.
  pose proof (compare_swap _ consistent a b) as H.
  rewrite <- Z.sgn_pos_iff, <- Z.sgn_neg_iff. lia.
Qed.

Lemma compare_zero_sym a b : compareFn a b = 0 -> compareFn b a = 0.
Proof.
  pose proof (compare_swap _ consistent a b) as H. intros H0.
  apply Z.sgn_null_iff. apply Z.sgn_null_iff in H0. lia.
Qed.

Lemma compare_zero_trans a b c :
  compareFn a b = 0 -> compareFn b c = 0 -> compareFn a c = 0.
Proof.
  intros Hab Hbc.
  pose proof (compare_trans _ consistent a b c) as H1.
  pose proof (compare_trans _ consistent c b a) as H2.
  pose proof (compare_zero_sym _ _ Hab). pose proof (compare_zero_sym _ _ Hbc).
  pose proof (compare_gt_lt c a). lia.
Qed.

Lemma compare_lt_le_trans a b c :
  compareFn a b < 0 -> compareFn b c <= 0 -> compareFn a c < 0.
Proof.
  intros Hab Hbc.
  pose proof (compare_trans _ consistent a b c) as H1.
  destruct (Z.eq_dec (compareFn a c) 0) as [H0|]; [|lia].
  pose proof (compare_zero_sym _ _ H0) as H0'.
  pose proof (compare_trans _ consistent b c a) as H2.
  pose proof (compare_gt_lt b a). lia.
Qed.

Lemma compare_le_lt_trans a b c :
  compareFn a b <= 0 -> compareFn b c < 0 -> compareFn a c < 0.
Proof.
  intros Hab Hbc.
  pose proof (compare_trans _ consistent a b c) as H1.
  destruct (Z.eq_dec (compareFn a c) 0) as [H0|]; [|lia].
  pose proof (compare_zero_sym _ _ H0) as H0'.
  pose proof (compare_trans _ consistent c a b) as H2.
  pose proof (compare_gt_lt c b). lia.
Qed.

Lemma sortInsert_sorted x l :
  StronglySorted (fun a b => compareFn a b <= 0) l ->
  StronglySorted (fun a b => compareFn a b <= 0) (sortInsert compareFn x l).
Proof.
  induction 1 as [|y l Hs IH Hy]; simpl.
  { repeat constructor. }
  destruct (Z.ltb_spec 0 (compareFn x y)) as [Hgt|Hle].
  - constructor; [done|].
    rewrite sortInsert_perm. constructor; [|done].
    apply compare_gt_lt in Hgt. lia.
  - constructor; [by constructor|].
    constructor; [done|].
    eapply Forall_impl; [exact Hy|]. intros z Hz.
    by apply (compare_trans _ consistent x y z).
Qed.

Lemma jsSort_sorted l :
  StronglySorted (fun a b => compareFn a b <= 0) (jsSort compareFn l).
Proof.
  induction l as [|x l IH]; simpl; [constructor|].
  by apply sortInsert_sorted.
Qed.

(** Stability: the elements that compare equal to [x] appear in the
    output in the order they have in the input. *)
Lemma sortInsert_stable x a l :
  filter (fun y => compareFn x y = 0) (sortInsert compareFn a l)
  = filter (fun y => compareFn x y = 0) (a :: l).
Proof.
  induction l as [|y l IH]; simpl; [done|].
  destruct (Z.ltb_spec 0 (compareFn a y)) as [Hgt|Hle]; [|done].
  rewrite (filter_cons _ y), IH, !filter_cons.
  destruct (decide (compareFn x y = 0)) as [Hy|Hy];
    destruct (decide (compareFn x a = 0)) as [Ha|Ha]; try done.
  pose proof (compare_zero_trans _ _ _ (compare_zero_sym _ _ Ha) Hy). lia.
Qed.

Lemma jsSort_stable x l :
  filter (fun y => compareFn x y = 0) (jsSort compareFn l)
  = filter (fun y => compareFn x y = 0) l.
Proof.
  induction l as [|a l IH]; simpl; [done|].
  by rewrite sortInsert_stable, !filter_cons, IH.
Qed.

(** Sorted, stable rearrangements of one array are equal: what the model
    of the host's sort returns is what any stable sort returns. *)
Lemma stable_sorted_unique l1 l2 :
  l1 ≡ₚ l2 ->
  StronglySorted (fun a b => compareFn a b <= 0) l1 ->
  StronglySorted (fun a b => compareFn a b <= 0) l2 ->
  (forall x, filter (fun y => compareFn x y = 0) l1
             = filter (fun y => compareFn x y = 0) l2) ->
  l1 = l2.
Proof.
  revert l2. induction l1 as [|a t1 IH]; intros l2 Hp Hs1 Hs2 Hf.
  { by apply Permutation_nil in Hp. }
  destruct l2 as [|b t2].
  { by apply Permutation_nil_r in Hp. }
  apply StronglySorted_cons in Hs1 as [Ha Hs1].
  apply StronglySorted_cons in Hs2 as [Hb Hs2].
  rewrite Forall_forall in Ha, Hb.
  assert (compareFn a b <= 0) as Hab.
  { assert (b ∈ a :: t1) as Hin by (rewrite Hp; left).
    apply elem_of_cons in Hin as [->|Hin]; [rewrite compare_refl; lia|auto]. }
  assert (compareFn b a <= 0) as Hba.
  { assert (a ∈ b :: t2) as Hin by (rewrite <- Hp; left).
    apply elem_of_cons in Hin as [->|Hin]; [rewrite compare_refl; lia|auto]. }
  assert (compareFn a b = 0) as Htie.
  { pose proof (compare_gt_lt b a). lia. }
  assert (a = b) as ->.
  { specialize (Hf a). rewrite !filter_cons in Hf.
    rewrite decide_True in Hf by apply compare_refl.
    rewrite decide_True in Hf by done. congruence. }
  f_equal. apply IH; [by apply (inj (b ::.))|done..|].
  intros x. specialize (Hf x). rewrite !filter_cons in Hf.
  destruct (decide (compareFn x b = 0)); congruence.
Qed.

Lemma jsSort_unique l out :
  out ≡ₚ l ->
  StronglySorted (fun a b => compareFn a b <= 0) out ->
  (forall x, filter (fun y => compareFn x y = 0) out
             = filter (fun y => compareFn x y = 0) l) ->
  out = jsSort compareFn l.
Proof.
  intros Hp Hs Hf. apply stable_sorted_unique; [|done|apply jsSort_sorted|].
  - by rewrite jsSort_perm.
  - intros x. by rewrite jsSort_stable.
Qed.

End SortFacts.

(** The sort only looks at the comparator's answers on the elements of
    the array. *)
Lemma sortInsert_ext {A} (f g : A -> A -> Z) x l :
  (forall y, y ∈ l -> f x y = g x y) ->
  sortInsert f x l = sortInsert g x l.
Proof.
  induction l as [|y l IH]; intros Heq; simpl; [done|].
  rewrite Heq by left. rewrite IH; [done|].
  intros z Hz. apply Heq. by right.
Qed.

Lemma jsSort_ext {A} (f g : A -> A -> Z) l :
  (forall a b, a ∈ l -> b ∈ l -> f a b = g a b) ->
  jsSort f l = jsSort g l.
Proof.
  induction l as [|x l IH]; intros Heq; simpl; [done|].
  rewrite IH by (intros a b Ha Hb; apply Heq; by right).
  apply sortInsert_ext. intros y Hy. apply Heq; [by left|].
  right. by rewrite jsSort_perm in Hy.
Qed.

Lemma jsSort_all_equal {A} (f : A -> A -> Z) l :
  (forall a b, a ∈ l -> b ∈ l -> f a b = 0) -> jsSort f l = l.
Proof.
  intros H0. rewrite (jsSort_ext f (fun _ _ => 0)) by done.
  apply jsSort_no_swap. intros; lia.
Qed.

Lemma StronglySorted_lookup_lt {A} (R : relation A) l i j a b :
  StronglySorted R l -> (i < j)%nat ->
  l !! i = Some a -> l !! j = Some b -> R a b.
Proof.
  intros Hs. revert i j. induction Hs as [|x l Hs IH Hx]; intros i j Hij Hi Hj.
  { by rewrite lookup_nil in Hi. }
  destruct j as [|j]; [lia|]. destruct i as [|i]; simpl in *.
  - inversion Hi; subst. rewrite Forall_forall in Hx.
    apply Hx. by eapply list_elem_of_lookup_2.
  - apply (IH i j); [lia|done..].
Qed.

(** ** Facts about the comparator *)

Lemma lex_consistent {A} (f g : A -> A -> Z) :
  Consistent f -> Consistent g ->
  Consistent (fun a b => if negb (f a b =? 0) then f a b else g a b).
Proof.
  intros Hf Hg. split.
  - intros a b.
    pose proof (compare_swap _ Hf a b) as Hs.
    destruct (Z.eqb_spec (f a b) 0) as [Hab|Hab];
      destruct (Z.eqb_spec (f b a) 0) as [Hba|Hba]; simpl.
    + apply Hg.
    + apply (compare_zero_sym f Hf) in Hab. done.
    + apply (compare_zero_sym f Hf) in Hba. done.
    + done.
  - intros a b c.
    destruct (Z.eqb_spec (f a b) 0) as [Hab|Hab];
      destruct (Z.eqb_spec (f b c) 0) as [Hbc|Hbc]; simpl; intros H1 H2.
    + rewrite (compare_zero_trans f Hf a b c Hab Hbc). simpl.
      by apply (compare_trans _ Hg a b c).
    + assert (f a c < 0) as Hac
        by (apply (compare_le_lt_trans f Hf a b c); lia).
      destruct (Z.eqb_spec (f a c) 0); simpl; lia.
    + assert (f a c < 0) as Hac
        by (apply (compare_lt_le_trans f Hf a b c); lia).
      destruct (Z.eqb_spec (f a c) 0); simpl; lia.
    + assert (f a c < 0) as Hac
        by (apply (compare_lt_le_trans f Hf a b c); lia).
      destruct (Z.eqb_spec (f a c) 0); simpl; lia.
Qed.

Lemma negated_consistent {A} (f : A -> A -> Z) :
  Consistent f -> Consistent (fun a b => - f a b).
Proof.
  intros Hf. split.
  - intros a b. pose proof (compare_swap _ Hf a b). rewrite !Z.sgn_opp. lia.
  - intros a b c H1 H2.
    pose proof (compare_gt_lt f Hf a b). pose proof (compare_gt_lt f Hf b c).
    pose proof (compare_gt_lt f Hf c a).
    pose proof (compare_trans _ Hf c b a).
    pose proof (compare_zero_sym f Hf a b). pose proof (compare_zero_sym f Hf b c).
    pose proof (compare_zero_sym f Hf c a).
    lia.
Qed.

(** Rounding to a double keeps the sign. *)
Lemma roundDouble_sgn d : Z.sgn (roundDouble d) = Z.sgn d.
Proof.
  unfold roundDouble. destruct (Z.ltb_spec (Z.abs d) (2 ^ 53)) as [|Hbig]; [done|].
  set (a := Z.abs d) in *. set (e := Z.log2 a - 52).
  assert (0 < a) as Ha by lia.
  pose proof (Z.log2_spec a Ha) as [Hlo Hhi].
  assert (53 <= Z.log2 a) as Hlog.
  { apply Z.log2_le_pow2; [done|lia]. }
  assert (0 < 2 ^ e) as Hpow by (apply Z.pow_pos_nonneg; unfold e; lia).
  assert (0 < a / 2 ^ e) as Hq.
  { apply Z.div_str_pos. split; [done|].
    eapply Z.le_trans; [|exact Hlo].
    apply Z.pow_le_mono_r; unfold e; lia. }
  set (q' := if a mod 2 ^ e <? 2 ^ (e - 1) then a / 2 ^ e
             else if 2 ^ (e - 1) <? a mod 2 ^ e then a / 2 ^ e + 1
             else if Z.even (a / 2 ^ e) then a / 2 ^ e else a / 2 ^ e + 1).
  assert (0 < q') as Hq'.
  { unfold q'. repeat case_match; lia. }
  rewrite Z.sgn_mul, (Z.sgn_pos (q' * 2 ^ e)) by lia.
  rewrite Z.sgn_sgn. lia.
Qed.

Lemma roundDouble_zero d : roundDouble d = 0 <-> d = 0.
Proof.
  pose proof (roundDouble_sgn d) as Hs.
  rewrite <- (Z.sgn_null_iff (roundDouble d)), <- (Z.sgn_null_iff d). lia.
Qed.

Lemma roundDouble_nonpos d : roundDouble d <= 0 <-> d <= 0.
Proof.
  pose proof (roundDouble_sgn d) as Hs.
  rewrite <- (Z.sgn_nonpos (roundDouble d)), <- (Z.sgn_nonpos d). lia.
Qed.

Lemma roundDouble_neg d : roundDouble d < 0 <-> d < 0.
Proof.
  pose proof (roundDouble_sgn d) as Hs.
  rewrite <- (Z.sgn_neg_iff (roundDouble d)), <- (Z.sgn_neg_iff d). lia.
Qed.

(** The two ends of the range of time values are 17279999999999999
    apart, which is no double; the difference the code computes is the
    nearest one. *)
Example difference_is_rounded :
  numSub (Num 8640000000000000) (Num (-8639999999999999))
  = Num 17280000000000000.
Proof. vm_compute. reflexivity. Qed.

Lemma notZero_numNeg x : notZero (numNeg x) = notZero x.
Proof.
  destruct x as [n|]; simpl; [|done].
  destruct (Z.eqb_spec n 0), (Z.eqb_spec (- n) 0); simpl; lia || done.
Qed.

Lemma numNeg_involutive x : numNeg (numNeg x) = x.
Proof. destruct x; simpl; [|done]. by rewrite Z.opp_involutive. Qed.

Section ComparatorFacts.
Variable host : Host.

(** *** The comparator as the code computes it *)

Lemma directed_zero c a b :
  directed host c a b = Num 0 <-> fieldCompare host (field c) a b = Num 0.
Proof.
  unfold directed. destruct (String.eqb _ _); [done|].
  destruct (fieldCompare host (field c) a b) as [n|]; simpl; [|done].
  split; intros [= H]; f_equal; lia.
Qed.

Lemma notZero_false x : notZero x = false <-> x = Num 0.
Proof.
  destruct x as [n|]; simpl; [|split; discriminate].
  rewrite negb_false_iff, Z.eqb_eq. split; [by intros ->|by intros [= ->]].
Qed.

Lemma compareClients_cons c rest a b :
  compareClients host (c :: rest) a b
  = if notZero (directed host c a b) then directed host c a b
    else compareClients host rest a b.
Proof.
  simpl. unfold directed.
  destruct (String.eqb (direction c) "asc"); [done|].
  by rewrite notZero_numNeg.
Qed.

Lemma compareClients_zero criteria a b :
  compareClients host criteria a b = Num 0 <-> tied host criteria a b.
Proof.
  unfold tied. induction criteria as [|c rest IH].
  { simpl. split; [constructor|done]. }
  rewrite compareClients_cons, Forall_cons, <- IH, <- directed_zero.
  destruct (notZero (directed host c a b)) eqn:Hnz.
  - split; [|intros [H0 _]; by apply notZero_false in H0; congruence].
    intros H0. apply notZero_false in H0. congruence.
  - apply notZero_false in Hnz. tauto.
Qed.

Lemma compareClients_neg criteria a b :
  (exists z, compareClients host criteria a b = Num z /\ z < 0) <->
  lexBefore host criteria a b.
Proof.
  induction criteria as [|c rest IH].
  { simpl. split.
    - intros (z & [= <-] & Hz). lia.
    - intros (h & c & l & z & Heq & _). by destruct h. }
  rewrite compareClients_cons.
  destruct (notZero (directed host c a b)) eqn:Hnz.
  - split.
    + intros (z & Hz & Hneg). exists [], c, rest, z.
      split; [done|]. split; [constructor|done].
    + intros (h & c' & l & z & Heq & Ht & Hd & Hneg). destruct h as [|c0 h].
      * simpl in Heq. inversion Heq; subst. by exists z.
      * simpl in Heq. inversion Heq; subst.
        apply Forall_cons in Ht as [Ht _]. apply directed_zero in Ht.
        rewrite Ht in Hnz. done.
  - apply notZero_false in Hnz. rewrite IH. split.
    + intros (h & c' & l & z & -> & Ht & Hd).
      exists (c :: h), c', l, z. split; [done|]. split; [|done].
      constructor; [by apply directed_zero|done].
    + intros (h & c' & l & z & Heq & Ht & Hd & Hneg). destruct h as [|c0 h].
      * simpl in Heq. inversion Heq; subst. rewrite Hnz in Hd.
        inversion Hd; subst. lia.
      * simpl in Heq. inversion Heq; subst.
        apply Forall_cons in Ht as [_ Ht]. by exists h, c', l, z.
Qed.

(** *** Records that hold no Invalid Date *)

Lemma dateProp_sanitize key a :
  dateProp (sanitize a) key = dropInvalid (dateProp a key).
Proof. unfold dateProp. by destruct (String.eqb key "createdAt"). Qed.

Lemma textProp_sanitize key a : textProp (sanitize a) key = textProp a key.
Proof. reflexivity. Qed.

Lemma sortValue_sanitize key a :
  validUnder key a -> sortValue (sanitize a) key = sortValue a key.
Proof.
  unfold validUnder, sortValue. rewrite dateProp_sanitize, textProp_sanitize.
  destruct (isDateField key); [|done]. intros Hv.
  destruct (dateProp a key) as [[t|]|]; try done. by destruct Hv.
Qed.

(** Under one field all sanitized records hold the same kind of value,
    and no [NaN]. *)
Lemma sortValue_kind f :
  (forall a, exists n, sortValue (sanitize a) f = VNumber (Num n)) \/
  (forall a, exists s, sortValue (sanitize a) f = VString s) \/
  (forall a, sortValue (sanitize a) f = VUndefined).
Proof.
  unfold sortValue. destruct (isDateField f).
  - left. intros a. rewrite dateProp_sanitize.
    destruct (dateProp a f) as [[t|]|]; simpl; eauto.
  - unfold textProp.
    repeat (destruct (String.eqb f _); [right; left; eauto|]).
    by right; right.
Qed.

Lemma fieldCompare_sanitized key a b :
  fieldCompare host key (sanitize a) (sanitize b) = Num (refField host key a b).
Proof.
  unfold refField, fieldCompare.
  destruct (sortValue_kind key) as [Hk|[Hk|Hk]].
  - by destruct (Hk a) as [n ->], (Hk b) as [m ->].
  - by destruct (Hk a) as [n ->], (Hk b) as [m ->].
  - by rewrite !Hk.
Qed.

Lemma fieldCompare_ref key a b :
  validUnder key a -> validUnder key b ->
  fieldCompare host key a b = Num (refField host key a b).
Proof.
  intros Ha Hb. rewrite <- fieldCompare_sanitized. unfold fieldCompare.
  by rewrite !sortValue_sanitize.
Qed.

Lemma fieldCompare_num_valid key a b z :
  fieldCompare host key a b = Num z -> validUnder key a /\ validUnder key b.
Proof.
  unfold fieldCompare, sortValue, validUnder.
  destruct (isDateField key); [|done].
  destruct (dateProp a key) as [[ta|]|], (dateProp b key) as [[tb|]|];
    simpl; intros H; try discriminate H; split; intros _; discriminate.
Qed.

Lemma fieldCompare_num_ref key a b z :
  fieldCompare host key a b = Num z -> refField host key a b = z.
Proof.
  intros Hz. destruct (fieldCompare_num_valid _ _ _ _ Hz) as [Ha Hb].
  rewrite (fieldCompare_ref key a b Ha Hb) in Hz. by inversion Hz.
Qed.

Lemma directed_ref c a b :
  validUnder (field c) a -> validUnder (field c) b ->
  directed host c a b = Num (refDirected host c a b).
Proof.
  intros Ha Hb. unfold directed, refDirected.
  rewrite (fieldCompare_ref _ a b Ha Hb).
  by destruct (String.eqb (direction c) "asc").
Qed.

Lemma directed_num_ref c a b z :
  directed host c a b = Num z -> refDirected host c a b = z.
Proof.
  unfold directed, refDirected.
  destruct (String.eqb (direction c) "asc").
  - apply fieldCompare_num_ref.
  - destruct (fieldCompare host (field c) a b) as [w|] eqn:Hw; simpl; [|done].
    intros [= <-]. by rewrite (fieldCompare_num_ref _ _ _ _ Hw).
Qed.

Lemma compareClients_ref criteria a b :
  datesValid criteria a -> datesValid criteria b ->
  compareClients host criteria a b = Num (refCompare host criteria a b).
Proof.
  unfold datesValid. induction criteria as [|c rest IH]; [done|].
  rewrite !Forall_cons. intros [Ha Hra] [Hb Hrb].
  rewrite compareClients_cons, (directed_ref c a b Ha Hb), (IH Hra Hrb).
  cbn [refCompare notZero].
  by destruct (negb (refDirected host c a b =? 0)).
Qed.

Lemma compareClients_num_ref criteria a b z :
  compareClients host criteria a b = Num z -> refCompare host criteria a b = z.
Proof.
  revert z. induction criteria as [|c rest IH]; intros z.
  { simpl. by intros [= <-]. }
  rewrite compareClients_cons. cbn [refCompare].
  destruct (directed host c a b) as [w|] eqn:Hw; simpl; [|done].
  rewrite (directed_num_ref _ _ _ _ Hw).
  destruct (negb (w =? 0)); [by intros [= <-]|apply IH].
Qed.

Hypothesis collation : Consistent (localeCompare host).

Lemma refField_consistent f : Consistent (refField host f).
Proof.
  unfold refField, fieldCompare.
  destruct (sortValue_kind f) as [Hk|[Hk|Hk]].
  - split.
    + intros a b. destruct (Hk a) as [n ->], (Hk b) as [m ->]. simpl.
      rewrite !roundDouble_sgn. lia.
    + intros a b c. destruct (Hk a) as [n ->], (Hk b) as [m ->], (Hk c) as [k ->].
      simpl. rewrite !roundDouble_nonpos. lia.
  - split.
    + intros a b. destruct (Hk a) as [n ->], (Hk b) as [m ->]. simpl.
      apply collation.
    + intros a b c. destruct (Hk a) as [n ->], (Hk b) as [m ->], (Hk c) as [k ->].
      simpl. apply collation.
  - split.
    + intros a b. by rewrite !Hk.
    + intros a b c. rewrite !Hk. simpl. lia.
Qed.

Lemma refDirected_consistent c : Consistent (refDirected host c).
Proof.
  unfold refDirected. destruct (String.eqb (direction c) "asc").
  - apply refField_consistent.
  - apply negated_consistent, refField_consistent.
Qed.

Lemma refCompare_consistent criteria : Consistent (refCompare host criteria).
Proof.
  induction criteria as [|c rest IH].
  { split; simpl; intros; lia. }
  exact (lex_consistent _ _ (refDirected_consistent c) IH).
Qed.

(** A record never compares before or after itself: the answer is [0],
    or [NaN] when an Invalid Date is met. *)
Lemma compareClients_self criteria a :
  sortCompare (compareClients host criteria a a) = 0.
Proof.
  destruct (compareClients host criteria a a) as [z|] eqn:Hz; [|done].
  apply compareClients_num_ref in Hz. simpl. rewrite <- Hz.
  apply (compare_refl _ (refCompare_consistent criteria)).
Qed.

End ComparatorFacts.

(** The code-unit collation is a consistent comparator. *)
Lemma codeUnitCompare_consistent : Consistent codeUnitCompare.
Proof.
  unfold codeUnitCompare. split.
  - intros a b. rewrite (String.compare_antisym a b).
    by destruct (String.compare b a).
  - intros a b c.
    destruct (String.compare a b) eqn:Hab; [|..|lia];
      destruct (String.compare b c) eqn:Hbc; try lia; intros _ _.
    + apply String_as_OT.cmp_eq in Hab as ->. by rewrite Hbc.
    + apply String_as_OT.cmp_eq in Hab as ->. by rewrite Hbc.
    + apply String_as_OT.cmp_eq in Hbc as <-. by rewrite Hab.
    + apply String_as_OT.cmp_lt in Hab, Hbc.
      pose proof (String_as_OT.lt_trans _ _ _ Hab Hbc) as Hac.
      apply String_as_OT.cmp_lt in Hac. unfold String_as_OT.cmp in Hac.
      by rewrite Hac.
Qed.

Lemma codeUnitHost_consistent : Consistent (localeCompare codeUnitHost).
Proof. apply codeUnitCompare_consistent. Qed.

(** ** The evaluator on references *)

Lemma fresh_not_allocated (h : heap) : h !! fresh (dom h) = None.
Proof. apply not_elem_of_dom, is_fresh. Qed.

(** The call allocates one array, holding what [applyMultiSort] computes,
    and changes nothing else. *)
Lemma applyMultiSortH_spec host criteria (h : heap) r clients :
  h !! r = Some clients ->
  applyMultiSortH host r criteria h
  = Some (fresh (dom h),
          <[fresh (dom h) := applyMultiSort host clients criteria]> h).
Proof.
  intros Hr. unfold applyMultiSortH, applyMultiSort, spread, sortInPlace.
  rewrite Hr. destruct (length criteria =? 0)%nat; [done|].
  by rewrite lookup_insert_eq, insert_insert_eq.
Qed.

(** ** Properties of the evaluator *)

Lemma filter_ext_in {A} (P Q : A -> Prop)
    `{!forall x, Decision (P x), !forall x, Decision (Q x)} (l : list A) :
  (forall x, x ∈ l -> P x <-> Q x) -> filter P l = filter Q l.
Proof.
  induction l as [|x l IH]; intros Hiff; [done|].
  rewrite !filter_cons, IH by (intros y Hy; apply Hiff; by right).
  destruct (decide (P x)) as [HP|HP], (decide (Q x)) as [HQ|HQ]; try done.
  - by apply (Hiff x) in HP; [|left].
  - by apply (Hiff x) in HQ; [|left].
Qed.

Section EvaluatorProperties.
Variable host : Host.

Lemma applyMultiSort_perm clients criteria :
  applyMultiSort host clients criteria ≡ₚ clients.
Proof.
  unfold applyMultiSort. destruct (length criteria =? 0)%nat; [done|].
  apply jsSort_perm.
Qed.

(** On records that hold no Invalid Date under the fields of the
    criteria, [sort] reads the comparator as a consistent one. *)
Lemma applyMultiSort_valid clients criteria :
  Forall (datesValid criteria) clients ->
  applyMultiSort host clients criteria
  = if (length criteria =? 0)%nat then clients
    else jsSort (refCompare host criteria) clients.
Proof.
  intros Hv. unfold applyMultiSort.
  destruct (length criteria =? 0)%nat; [done|].
  apply jsSort_ext. intros a b Ha Hb. rewrite Forall_forall in Hv.
  by rewrite (compareClients_ref host criteria a b) by auto.
Qed.

Lemma applyMultiSort_valid_nonempty clients c criteria :
  Forall (datesValid (c :: criteria)) clients ->
  applyMultiSort host clients (c :: criteria)
  = jsSort (refCompare host (c :: criteria)) clients.
Proof. intros Hv. by rewrite applyMultiSort_valid. Qed.

End EvaluatorProperties.

(** C1. The claim is not met by the code on every list: an Invalid Date
    defeats it.  On two records whose creation time is an Invalid Date,
    sorted by creation time and then by name, the comparator answers [NaN] whichever way the two are
    compared - [NaN !== 0] holds, so the loop returns at the first
    criterion - and [sort], which reads [NaN] as [0], leaves Bob before
    Amy: the output is not in priority order, since the first criterion
    does not put Bob first and the second one puts Amy first.  Likewise a
    record with an Invalid Date between two dated ones keeps them from
    being ordered. *)
Theorem invalid_date_defeats_the_order :
  compareClients codeUnitHost by_created_then_name bob_invalid amy_invalid
  = NaN /\
  compareClients codeUnitHost by_created_then_name amy_invalid bob_invalid
  = NaN /\
  fieldCompare codeUnitHost "name" amy_invalid bob_invalid = Num (-1) /\
  applyMultiSort codeUnitHost [bob_invalid; amy_invalid] by_created_then_name
  = [bob_invalid; amy_invalid] /\
  ~ lexBefore codeUnitHost by_created_then_name bob_invalid amy_invalid /\
  ~ tied codeUnitHost by_created_then_name bob_invalid amy_invalid /\
  applyMultiSort codeUnitHost [amy_new; bob_invalid; bob] [by_created_asc]
  = [amy_new; bob_invalid; bob] /\
  instantOf amy_new "createdAt" = Num 2000 /\
  instantOf bob "createdAt" = Num 1000.
Proof.
  split; [reflexivity|]. split; [reflexivity|]. split; [reflexivity|].
  split; [reflexivity|]. split; [|split; [|by repeat split]].
  - intros Hlex. apply compareClients_neg in Hlex as (z & Hz & _).
    discriminate Hz.
  - intros Ht. apply compareClients_zero in Ht. discriminate Ht.
Qed.

(** ** Totality, and criteria that name no value *)

Lemma absent_not_property f a : f ∉ propertyNames -> absentFrom f a.
Proof.
  unfold propertyNames, absentFrom, isDateField, dateProp, textProp.
  intros Hf.
  destruct (String.eqb_spec f "createdAt") as [->|_]; [set_solver|].
  destruct (String.eqb_spec f "updatedAt") as [->|_]; [set_solver|]. simpl.
  destruct (String.eqb_spec f "id") as [->|_]; [set_solver|].
  destruct (String.eqb_spec f "name") as [->|_]; [set_solver|].
  destruct (String.eqb_spec f "email") as [->|_]; [set_solver|].
  destruct (String.eqb_spec f "status") as [->|_]; [set_solver|]. done.
Qed.

Lemma fieldCompare_absent host f a b :
  absentFrom f a -> absentFrom f b -> fieldCompare host f a b = Num 0.
Proof.
  unfold absentFrom, fieldCompare, sortValue.
  destruct (isDateField f); intros -> ->; reflexivity.
Qed.

Lemma compareClients_skip host higher c lower a b :
  fieldCompare host (field c) a b = Num 0 ->
  compareClients host (higher ++ c :: lower) a b
  = compareClients host (higher ++ lower) a b.
Proof.
  intros H0. induction higher as [|c0 higher IH]; simpl.
  - by rewrite H0.
  - by rewrite IH.
Qed.

Lemma sortValue_not_property f a :
  f ∉ propertyNames -> sortValue a f = VUndefined.
Proof.
  intros Hf. pose proof (absent_not_property f a Hf) as Habs.
  unfold absentFrom in Habs. unfold sortValue.
  destruct (isDateField f) eqn:Hd; [|by rewrite Habs].
  unfold isDateField in Hd. apply orb_prop in Hd.
  destruct Hd as [Hd|Hd]; apply String.eqb_eq in Hd; subst f;
    exfalso; apply Hf; unfold propertyNames; set_solver.
Qed.

(** C10. [applyMultiSort] is total: for all records and all criteria,
    whatever their field identifiers, the call returns normally with a
    rearrangement of the records.  An identifier that is not a property
    name reads as [undefined] on every record, and two [undefined] values
    fall through to the comparison by [<] and [>], which gives zero.  A
    field that is absent from every record compares every pair of them as
    equal, and a criterion on such a field can be removed from the list
    without changing the result. *)
Theorem applyMultiSort_total host clients criteria :
  (exists out,
     applyMultiSort_completion host clients criteria = Returned out /\
     out ≡ₚ clients) /\
  (forall f a, f ∉ propertyNames -> sortValue a f = VUndefined) /\
  compareValues host VUndefined VUndefined = Num 0 /\
  (forall f, f ∉ propertyNames -> Forall (absentFrom f) clients) /\
  (forall f, Forall (absentFrom f) clients ->
     forall a b, a ∈ clients -> b ∈ clients -> fieldCompare host f a b = Num 0) /\
  (forall higher c lower,
     criteria = higher ++ c :: lower ->
     Forall (absentFrom (field c)) clients ->
     applyMultiSort host clients criteria
     = applyMultiSort host clients (higher ++ lower)).
Proof.
  split; [|split; [|split; [|split; [|split]]]].
  - eexists. split; [reflexivity|apply applyMultiSort_perm].
  - intros f a. apply sortValue_not_property.
  - reflexivity.
  - intros f Hf. apply Forall_forall. intros a _. by apply absent_not_property.
  - intros f Habs a b Ha Hb. rewrite Forall_forall in Habs.
    apply fieldCompare_absent; auto.
  - intros higher c lower -> Habs. rewrite Forall_forall in Habs.
    assert (forall a b, a ∈ clients -> b ∈ clients ->
              compareClients host (higher ++ c :: lower) a b
              = compareClients host (higher ++ lower) a b) as Heq.
    { intros a b Ha Hb. apply compareClients_skip, fieldCompare_absent; auto. }
    unfold applyMultiSort.
    replace (length (higher ++ c :: lower) =? 0)%nat with false
      by (rewrite length_app; simpl; symmetry; apply Nat.eqb_neq; lia).
    rewrite (jsSort_ext _
               (fun a b =>
                  sortCompare (compareClients host (higher ++ lower) a b)))
      by (intros a b Ha Hb; by rewrite Heq).
    destruct (higher ++ lower) as [|c0 rest]; [|done].
    simpl. by apply jsSort_all_equal.
Qed.

Example bogus_after_name_changes_nothing :
  applyMultiSort codeUnitHost [bob; amy_old; amy_new]
    [ {| id := "sort-1-name"; field := "name"; direction := "asc" |};
      bogus_criterion ]
  = applyMultiSort codeUnitHost [bob; amy_old; amy_new]
      [ {| id := "sort-1-name"; field := "name"; direction := "asc" |} ].
Proof. vm_compute. reflexivity. Qed.

(** ** Failures *)

(** C2, as stated, fails: a criterion whose field has no descriptor does
    not make the call fail with [UnknownField]; the call returns. *)
Lemma unknown_field_is_not_reported :
  hasDescriptor (field bogus_criterion) = false /\
  applyMultiSort_completion codeUnitHost [bob; amy_old; amy_new]
    [bogus_criterion]
  = Returned [bob; amy_old; amy_new] /\
  applyMultiSort_completion codeUnitHost [bob; amy_old; amy_new]
    [bogus_criterion]
  <> Raised UnknownField.
Proof. split; [reflexivity|]. split; [reflexivity|discriminate]. Qed.

(** C2, amended. [applyMultiSort] reads no field descriptor and raises
    neither [InvalidFieldKind] nor [UnknownField]: every call returns a
    rearrangement of the records.  A criterion whose field has no
    descriptor is compared on the records' [id], by [localeCompare],
    when it names it, and otherwise compares all records as equal. *)
Theorem applyMultiSort_never_raises host clients criteria :
  (exists out,
     applyMultiSort_completion host clients criteria = Returned out /\
     out ≡ₚ clients) /\
  (forall e, applyMultiSort_completion host clients criteria <> Raised e) /\
  (forall c, c ∈ criteria -> hasDescriptor (field c) = false ->
     (field c = "id" /\
      forall a b,
        fieldCompare host (field c) a b
        = Num (localeCompare host (client_id a) (client_id b))) \/
     forall a b, fieldCompare host (field c) a b = Num 0).
Proof.
  split; [|split].
  - eexists. split; [reflexivity|apply applyMultiSort_perm].
  - intros e. discriminate.
  - intros c _ Hd. unfold hasDescriptor, clientFields in Hd.
    cbn [existsb fd_id] in Hd.
    repeat (apply orb_false_elim in Hd as [? Hd]).
    destruct (String.eqb_spec (field c) "id") as [Hid|Hid].
    { left. split; [done|]. intros a b. by rewrite Hid. }
    right.
    intros a b. apply fieldCompare_absent; apply absent_not_property;
      unfold propertyNames; rewrite !elem_of_cons, elem_of_nil;
      intros [?|[?|[?|[?|[?|[?|[]]]]]]];
      repeat match goal with
             | H : String.eqb ?x ?y = false |- _ =>
                 apply String.eqb_neq in H
             end; congruence.
Qed.

(** ** No criteria *)

(** C6. With no criteria, [applyMultiSort] returns a shallow copy: a new
    array, distinct from every array that existed before the call - the
    argument among them - whose contents are the records of the argument
    in the same order; the argument and all other arrays are left as they
    were. *)
Theorem applyMultiSort_empty_is_copy host (h : heap) r clients :
  h !! r = Some clients ->
  applyMultiSort host clients [] = clients /\
  exists r' h',
    applyMultiSortH host r [] h = Some (r', h') /\
    r' <> r /\
    h !! r' = None /\
    h' !! r' = Some clients /\
    h' !! r = Some clients /\
    forall k, k <> r' -> h' !! k = h !! k.
Proof.
  intros Hr. split; [done|].
  exists (fresh (dom h)), (<[fresh (dom h) := clients]> h).
  pose proof (fresh_not_allocated h) as Hfresh.
  assert (fresh (dom h) <> r) as Hne by congruence.
  split; [by rewrite (applyMultiSortH_spec host [] h r clients Hr)|].
  split; [done|]. split; [done|].
  split; [apply lookup_insert_eq|].
  split; [by rewrite lookup_insert_ne|].
  intros k Hk. by rewrite lookup_insert_ne.
Qed.

Lemma applyMultiSort_empty_is_copy_witness :
  ({[ 7%nat := [bob; amy_old; amy_new] ]} : heap) !! 7%nat
    = Some [bob; amy_old; amy_new] /\
  applyMultiSort codeUnitHost [bob; amy_old; amy_new] []
    = [bob; amy_old; amy_new] /\
  exists r' h',
    applyMultiSortH codeUnitHost 7%nat []
      ({[ 7%nat := [bob; amy_old; amy_new] ]} : heap) = Some (r', h') /\
    r' <> 7%nat /\
    ({[ 7%nat := [bob; amy_old; amy_new] ]} : heap) !! r' = None /\
    h' !! r' = Some [bob; amy_old; amy_new] /\
    h' !! 7%nat = Some [bob; amy_old; amy_new] /\
    forall k, k <> r' ->
      h' !! k = ({[ 7%nat := [bob; amy_old; amy_new] ]} : heap) !! k.
Proof.
  split; [apply lookup_singleton_eq|].
  apply (applyMultiSort_empty_is_copy codeUnitHost
           {[ 7%nat := [bob; amy_old; amy_new] ]} 7%nat
           [bob; amy_old; amy_new]).
  apply lookup_singleton_eq.
Defined.

(** ** Missing timestamps *)

Lemma sortValue_date f a :
  isDateField f = true -> sortValue a f = VNumber (instantOf a f).
Proof.
  intros Hf. unfold sortValue, instantOf. rewrite Hf.
  by destruct (dateProp a f).
Qed.

Lemma fieldCompare_date host f a b :
  isDateField f = true ->
  fieldCompare host f a b = numSub (instantOf a f) (instantOf b f).
Proof.
  intros Hf. unfold fieldCompare. by rewrite !sortValue_date.
Qed.

Lemma instantOf_valid f a :
  isDateField f = true -> validUnder f a -> exists t, instantOf a f = Num t.
Proof.
  intros Hf Hv. specialize (Hv Hf). unfold instantOf.
  destruct (dateProp a f) as [[t|]|]; [by exists t|done|by exists 0].
Qed.

Lemma compareClients_single host c a b :
  compareClients host [c] a b = directed host c a b.
Proof.
  rewrite compareClients_cons. simpl.
  destruct (notZero (directed host c a b)) eqn:Hnz; [done|].
  by apply notZero_false in Hnz.
Qed.

Lemma datesValid_single c a : datesValid [c] a <-> validUnder (field c) a.
Proof.
  unfold datesValid. rewrite Forall_cons, Forall_nil. tauto.
Qed.

Lemma tied_single host c a b :
  tied host [c] a b <-> fieldCompare host (field c) a b = Num 0.
Proof. unfold tied. rewrite Forall_cons, Forall_nil. tauto. Qed.

(** C4. The claim is not met by the code.  A missing timestamp is
    compared as the number [0], which is the epoch and not the earliest
    time: sorted by creation time, ascending, a record whose creation time
    is missing is placed after a record created one second before the
    epoch. *)
Theorem absent_timestamp_after_pre_epoch :
  createdAt undated = None /\
  createdAt pre_epoch = Some (DateAt (-1000)) /\
  sortValue undated "createdAt" = VNumber (Num 0) /\
  fieldCompare codeUnitHost "createdAt" undated pre_epoch = Num 1000 /\
  applyMultiSort codeUnitHost [undated; pre_epoch] [by_created_asc]
  = [pre_epoch; undated] /\
  applyMultiSort codeUnitHost [pre_epoch; undated] [by_created_asc]
  = [pre_epoch; undated].
Proof. repeat split; reflexivity. Qed.

Example undated_sorts_first :
  applyMultiSort codeUnitHost [bob; undated; amy_new] [by_created_asc]
  = [undated; bob; amy_new].
Proof. vm_compute. reflexivity. Qed.

(** ** Stability on records without Invalid Date *)

Lemma tied_ref host criteria a b :
  tied host criteria a b -> refCompare host criteria a b = 0.
Proof. intros Ht. by apply compareClients_num_ref, compareClients_zero. Qed.

Lemma ref_tied host criteria a b :
  datesValid criteria a -> datesValid criteria b ->
  refCompare host criteria a b = 0 -> tied host criteria a b.
Proof.
  intros Ha Hb H0. apply compareClients_zero.
  by rewrite (compareClients_ref host criteria a b Ha Hb), H0.
Qed.

Lemma tied_valid host criteria a b :
  tied host criteria a b ->
  datesValid criteria a /\ datesValid criteria b.
Proof.
  unfold tied, datesValid. induction 1 as [|c rest Hc _ [IHa IHb]].
  { split; constructor. }
  apply fieldCompare_num_valid in Hc as [Ha Hb].
  split; by constructor.
Qed.

Lemma applyMultiSort_stable_valid host clients criteria x :
  Consistent (localeCompare host) ->
  Forall (datesValid criteria) clients ->
  filter (tied host criteria x) (applyMultiSort host clients criteria)
  = filter (tied host criteria x) clients.
Proof.
  intros Hc Hv. rewrite applyMultiSort_valid by done.
  destruct (length criteria =? 0)%nat; [done|].
  assert (forall l : list Client,
            filter (tied host criteria x) l
            = filter (tied host criteria x)
                (filter (fun y => refCompare host criteria x y = 0) l))
    as Hsplit.
  { intros l. rewrite list_filter_filter. apply list_filter_iff.
    intros y. split; [|tauto]. intros Ht. split; [done|by apply tied_ref]. }
  rewrite (Hsplit (jsSort _ _)), (Hsplit clients).
  by rewrite (jsSort_stable _ (refCompare_consistent host Hc criteria)).
Qed.

(** ** Direction inversion *)

Lemma StronglySorted_mono {A} (R1 R2 : relation A) l :
  (forall a b, R1 a b -> R2 a b) -> StronglySorted R1 l -> StronglySorted R2 l.
Proof.
  intros Himp. induction 1 as [|x l Hs IH Hx]; constructor; [done|].
  eapply Forall_impl; [exact Hx|]. auto.
Qed.

Lemma StronglySorted_reverse {A} (R : relation A) l :
  StronglySorted R l -> StronglySorted (flip R) (reverse l).
Proof.
  induction 1 as [|x l Hs IH Hx]; [constructor|].
  rewrite reverse_cons. apply StronglySorted_app_2; [|done|repeat constructor].
  intros y z Hy Hz. apply list_elem_of_singleton in Hz as ->.
  rewrite Forall_forall in Hx. apply Hx. by apply elem_of_reverse.
Qed.

Lemma tie_same_position {A} (P : A -> A -> Prop) (l : list A) a b :
  (forall i j x y, i <> j -> l !! i = Some x -> l !! j = Some y -> ~ P x y) ->
  a ∈ l -> b ∈ l -> P a b -> a = b.
Proof.
  intros Hno Ha Hb Hab.
  apply list_elem_of_lookup in Ha as [i Hi]. apply list_elem_of_lookup in Hb as [j Hj].
  destruct (decide (i = j)) as [->|Hij]; [congruence|].
  by destruct (Hno i j a b Hij Hi Hj).
Qed.

Lemma refCompare_single host c a b :
  refCompare host [c] a b = refDirected host c a b.
Proof.
  cbn [refCompare].
  by destruct (Z.eqb_spec (refDirected host c a b) 0) as [->|].
Qed.

(** Where any two records at different positions compare as numbers,
    [sort] reads the comparator as a consistent one. *)
Lemma jsSort_numbers host criteria clients :
  Consistent (localeCompare host) ->
  (forall i j a b, i <> j -> clients !! i = Some a -> clients !! j = Some b ->
     exists z, compareClients host criteria a b = Num z) ->
  jsSort (fun a b => sortCompare (compareClients host criteria a b)) clients
  = jsSort (refCompare host criteria) clients.
Proof.
  intros Hc Hnum. apply jsSort_ext. intros a b Ha Hb.
  apply list_elem_of_lookup in Ha as [i Hi].
  apply list_elem_of_lookup in Hb as [j Hj].
  destruct (decide (i = j)) as [->|Hij].
  - assert (a = b) as -> by congruence.
    rewrite (compareClients_self host Hc).
    symmetry. apply (compare_refl _ (refCompare_consistent host Hc criteria)).
  - destruct (Hnum i j a b Hij Hi Hj) as [z Hz]. rewrite Hz. simpl.
    symmetry. by apply compareClients_num_ref.
Qed.

(** C5, as stated, fails: a record whose creation time is missing and a
    record created at the epoch have different values under [createdAt],
    and the descending output is not the reverse of the ascending one. *)
Lemma descending_not_reverse_at_epoch :
  dateProp undated "createdAt" = None /\
  dateProp at_epoch "createdAt" = Some (DateAt 0) /\
  dateProp undated "createdAt" <> dateProp at_epoch "createdAt" /\
  applyMultiSort codeUnitHost [undated; at_epoch] [by_created_asc]
  = [undated; at_epoch] /\
  applyMultiSort codeUnitHost [undated; at_epoch] [by_created_desc]
  = [undated; at_epoch] /\
  applyMultiSort codeUnitHost [undated; at_epoch] [by_created_desc]
  <> reverse (applyMultiSort codeUnitHost [undated; at_epoch] [by_created_asc]).
Proof.
  split; [reflexivity|]. split; [reflexivity|]. split; [discriminate|].
  split; [reflexivity|]. split; [reflexivity|].
  vm_compute. discriminate.
Qed.

(** C5, amended. For a field on which any two records of the input, at
    different positions, compare as a number other than zero, sorting by
    it in descending direction gives the reverse of sorting by it in
    ascending direction.  When no record of the input holds an Invalid
    Date under the field, the records that compare equal on the field
    keep, in either direction, the relative order of the input, so with
    records that compare equal the descending output need not be the
    reverse of the ascending one: it is not for two records created at the
    same time. *)
Theorem descending_reverses_ascending host f idA idD clients :
  Consistent (localeCompare host) ->
  let ascending :=
    applyMultiSort host clients
      [ {| id := idA; field := f; direction := "asc" |} ] in
  let descending :=
    applyMultiSort host clients
      [ {| id := idD; field := f; direction := "desc" |} ] in
  ((forall i j a b, i <> j -> clients !! i = Some a -> clients !! j = Some b ->
      exists z, fieldCompare host f a b = Num z /\ z <> 0) ->
   descending = reverse ascending) /\
  (Forall (validUnder f) clients ->
   forall x,
     filter (fun y => fieldCompare host f x y = Num 0) ascending
     = filter (fun y => fieldCompare host f x y = Num 0) clients /\
     filter (fun y => fieldCompare host f x y = Num 0) descending
     = filter (fun y => fieldCompare host f x y = Num 0) clients) /\
  applyMultiSort host [bob; amy_old] [by_created_desc]
  <> reverse (applyMultiSort host [bob; amy_old] [by_created_asc]).
Proof.
  intros Hc ascending descending.
  set (cA := {| id := idA; field := f; direction := "asc" |}) in *.
  set (cD := {| id := idD; field := f; direction := "desc" |}) in *.
  pose proof (refField_consistent host Hc f) as Hf.
  pose proof (refCompare_consistent host Hc [cA]) as HcA.
  pose proof (refCompare_consistent host Hc [cD]) as HcD.
  assert (forall a b, refCompare host [cA] a b = refField host f a b)
    as HeqA by (intros; by rewrite refCompare_single).
  assert (forall a b, refCompare host [cD] a b = - refField host f a b)
    as HeqD by (intros; by rewrite refCompare_single).
  split; [|split].
  - intros Hno.
    assert (ascending = jsSort (refCompare host [cA]) clients) as HA.
    { apply (jsSort_numbers host [cA] clients Hc). intros i j a b Hij Hi Hj.
      destruct (Hno i j a b Hij Hi Hj) as (z & Hz & _). exists z.
      rewrite compareClients_single. unfold directed. by simpl. }
    assert (descending = jsSort (refCompare host [cD]) clients) as HD.
    { apply (jsSort_numbers host [cD] clients Hc). intros i j a b Hij Hi Hj.
      destruct (Hno i j a b Hij Hi Hj) as (z & Hz & _). exists (- z).
      rewrite compareClients_single. unfold directed. simpl. by rewrite Hz. }
    apply (StronglySorted_unique_strong
             (fun a b => refCompare host [cD] a b <= 0)).
    + intros x1 x2 Hx1 Hx2 H12 H21.
      rewrite HD, jsSort_perm in Hx1.
      rewrite elem_of_reverse, HA, jsSort_perm in Hx2.
      apply (tie_same_position (fun a b => refField host f a b = 0) clients);
        [|done..|].
      * intros i j x y Hij Hi Hj H0.
        destruct (Hno i j x y Hij Hi Hj) as (z & Hz & Hnz).
        apply fieldCompare_num_ref in Hz. congruence.
      * rewrite HeqD in H12, H21.
        pose proof (compare_gt_lt _ Hf x1 x2). lia.
    + rewrite HD. by apply jsSort_sorted.
    + pose proof (jsSort_sorted _ HcA clients) as Hs. rewrite <- HA in Hs.
      apply StronglySorted_reverse in Hs.
      eapply StronglySorted_mono; [|exact Hs].
      intros a b. unfold flip. rewrite HeqA, HeqD.
      pose proof (compare_gt_lt _ Hf b a). lia.
    + by rewrite reverse_Permutation, HA, HD, !jsSort_perm.
  - intros Hv x.
    assert (forall c : SortCriterion, field c = f ->
              forall l : list Client,
                filter (fun y => fieldCompare host f x y = Num 0) l
                = filter (tied host [c] x) l) as Hfl.
    { intros c Hfc l. apply list_filter_iff. intros y.
      by rewrite tied_single, Hfc. }
    assert (forall c : SortCriterion, field c = f ->
              Forall (datesValid [c]) clients) as Hdv.
    { intros c Hfc. eapply Forall_impl; [exact Hv|].
      intros a Ha. apply datesValid_single. by rewrite Hfc. }
    split.
    + rewrite !(Hfl cA eq_refl).
      apply applyMultiSort_stable_valid; [done|by apply Hdv].
    + rewrite !(Hfl cD eq_refl).
      apply applyMultiSort_stable_valid; [done|by apply Hdv].
  - vm_compute. discriminate.
Qed.

Lemma descending_reverses_ascending_witness :
  Consistent (localeCompare codeUnitHost) /\
  let ascending :=
    applyMultiSort codeUnitHost [bob; amy_new; pre_epoch]
      [ {| id := "a"; field := "name"; direction := "asc" |} ] in
  let descending :=
    applyMultiSort codeUnitHost [bob; amy_new; pre_epoch]
      [ {| id := "d"; field := "name"; direction := "desc" |} ] in
  ((forall i j a b, i <> j ->
      [bob; amy_new; pre_epoch] !! i = Some a ->
      [bob; amy_new; pre_epoch] !! j = Some b ->
      exists z, fieldCompare codeUnitHost "name" a b = Num z /\ z <> 0) ->
   descending = reverse ascending) /\
  (Forall (validUnder "name") [bob; amy_new; pre_epoch] ->
   forall x,
     filter (fun y => fieldCompare codeUnitHost "name" x y = Num 0) ascending
     = filter (fun y => fieldCompare codeUnitHost "name" x y = Num 0)
         [bob; amy_new; pre_epoch] /\
     filter (fun y => fieldCompare codeUnitHost "name" x y = Num 0) descending
     = filter (fun y => fieldCompare codeUnitHost "name" x y = Num 0)
         [bob; amy_new; pre_epoch]) /\
  applyMultiSort codeUnitHost [bob; amy_old] [by_created_desc]
  <> reverse (applyMultiSort codeUnitHost [bob; amy_old] [by_created_asc]).
Proof.
  split; [exact codeUnitHost_consistent|].
  apply (descending_reverses_ascending codeUnitHost "name" "a" "d"
           [bob; amy_new; pre_epoch] codeUnitHost_consistent).
Defined.

Example descending_is_reverse_here :
  applyMultiSort codeUnitHost [bob; amy_new; pre_epoch]
    [ {| id := "d"; field := "name"; direction := "desc" |} ]
  = [pre_epoch; bob; amy_new]
  /\ applyMultiSort codeUnitHost [bob; amy_new; pre_epoch]
       [ {| id := "a"; field := "name"; direction := "asc" |} ]
     = [amy_new; bob; pre_epoch].
Proof. vm_compute. auto. Qed.

(** ** The criteria store: reordering *)


Lemma spliceIn_perm {A} j (x : A) l : spliceIn j x l ≡ₚ x :: l.
Proof.
  unfold spliceIn. rewrite <- Permutation_middle. by rewrite take_drop.
Qed.

Lemma spliceIn_lookup {A} j (x : A) l :
  (j <= length l)%nat -> spliceIn j x l !! j = Some x.
Proof.
  intros Hj. unfold spliceIn.
  rewrite lookup_app_r by (rewrite length_take; lia).
  rewrite length_take. by replace (j - j `min` length l)%nat with 0%nat by lia.
Qed.

Lemma delete_spliceIn {A} j (x : A) l :
  (j <= length l)%nat -> delete j (spliceIn j x l) = l.
Proof.
  intros Hj. unfold spliceIn.
  rewrite <- (take_drop j l) at 3.
  replace j with (length (take j l)) at 1 by (rewrite length_take; lia).
  apply delete_middle.
Qed.

Lemma moved_perm {A} i j (x : A) l :
  l !! i = Some x -> spliceIn j x (delete i l) ≡ₚ l.
Proof.
  intros Hi. rewrite spliceIn_perm. symmetry. by apply delete_Permutation.
Qed.

Lemma handleDragEnd_perm activeId overId sortCriteria :
  handleDragEnd activeId overId sortCriteria ≡ₚ sortCriteria.
Proof.
  unfold handleDragEnd. case_bool_decide; [|done].
  destruct (findIndex _ sortCriteria) as [i|] eqn:Ho; [|done].
  destruct overId as [o|]; [|done].
  destruct (findIndex (fun c => String.eqb (id c) o) sortCriteria) as [j|];
    [|done].
  destruct (sortCriteria !! i) as [moved|] eqn:Hi; [|done].
  by apply moved_perm.
Qed.


Example drag_first_to_last :
  handleDragEnd "sort-1-name" (Some "sort-3-createdAt")
    (by_name_then_newest ++ [by_created_asc])
  = [ {| id := "sort-2-createdAt"; field := "createdAt"; direction := "desc" |};
      by_created_asc;
      {| id := "sort-1-name"; field := "name"; direction := "asc" |} ].
Proof. vm_compute. reflexivity. Qed.

(** ** The criteria store: adding *)

Lemma existsb_field f (s : list SortCriterion) :
  existsb (fun c => String.eqb (field c) f) s = true <-> f ∈ field <$> s.
Proof.
  rewrite existsb_exists, list_elem_of_fmap. split.
  - intros (c & Hin & Heq). apply String.eqb_eq in Heq.
    exists c. split; [done|]. by apply list_elem_of_In.
  - intros (c & -> & Hin). exists c. split; [by apply list_elem_of_In|].
    apply String.eqb_refl.
Qed.

Lemma handleAddField_present now f s :
  f ∈ field <$> s -> handleAddField now f s = s.
Proof.
  intros Hin. unfold handleAddField.
  apply existsb_field in Hin. rewrite Hin. by rewrite andb_false_r.
Qed.

Lemma handleAddField_new now f s :
  f <> "" -> f ∉ field <$> s ->
  handleAddField now f s
  = s ++ [ {| id := newId now f; field := f; direction := "asc" |} ].
Proof.
  intros Hne Hnin. unfold handleAddField.
  apply String.eqb_neq in Hne. rewrite Hne.
  destruct (existsb _ s) eqn:Hex; [|done].
  by apply existsb_field in Hex.
Qed.

Lemma handleAddField_NoDup now f s :
  NoDup (field <$> s) -> NoDup (field <$> handleAddField now f s).
Proof.
  intros Hnd. unfold handleAddField.
  destruct (String.eqb f "") eqn:Hf; simpl; [done|].
  destruct (existsb _ s) eqn:Hex; simpl; [done|].
  rewrite fmap_app. simpl. apply NoDup_app. split; [done|].
  split; [|apply NoDup_singleton].
  intros x Hx Hx'. apply list_elem_of_singleton in Hx' as ->.
  apply existsb_field in Hx. congruence.
Qed.

(** The identities the store generates: distinct fields or distinct clock
    readings give distinct identities. *)
Lemma pretty_N_go_digits x s : digits s = true -> digits (pretty_N_go x s) = true.
Proof.
  revert s. induction (N.lt_wf_0 x) as [x _ IH]; intros s Hs.
  assert (x = 0 \/ 0 < x)%N as [->|?] by lia.
  - by rewrite pretty_N_go_0.
  - rewrite pretty_N_go_step by done. apply IH; [by apply N.div_lt|].
    simpl. rewrite Hs, andb_true_r.
    unfold pretty_N_char. by repeat case_match.
Qed.

Lemma pretty_N_go_not_empty x s : s <> "" -> pretty_N_go x s <> "".
Proof.
  revert s. induction (N.lt_wf_0 x) as [x _ IH]; intros s Hs.
  assert (x = 0 \/ 0 < x)%N as [->|?] by lia.
  - by rewrite pretty_N_go_0.
  - rewrite pretty_N_go_step by done. apply IH; [by apply N.div_lt|done].
Qed.

Lemma pretty_N_digits (x : N) : digits (pretty x) = true /\ pretty x <> "".
Proof.
  unfold pretty, pretty_N. case_decide; [done|].
  split; [by apply pretty_N_go_digits|].
  rewrite pretty_N_go_step by lia. by apply pretty_N_go_not_empty.
Qed.

Lemma digits_dash_inj s1 s2 t1 t2 :
  digits s1 = true -> digits s2 = true ->
  s1 +:+ "-" +:+ t1 = s2 +:+ "-" +:+ t2 -> s1 = s2 /\ t1 = t2.
Proof.
  revert s2. induction s1 as [|a s1 IH]; intros [|b s2]; simpl; intros H1 H2 Heq.
  - by inversion Heq.
  - inversion Heq; subst. done.
  - inversion Heq; subst. done.
  - apply andb_prop in H1 as [_ H1], H2 as [_ H2].
    inversion Heq; subst. destruct (IH s2 H1 H2) as [-> ->]; done.
Qed.

Lemma pretty_Z_shape (n : Z) :
  (digits (pretty n) = true /\ pretty n <> "") \/
  (exists p, n = Z.neg p /\ pretty n = "-" +:+ pretty (N.pos p)).
Proof.
  destruct n as [|p|p]; [by left|left; apply (pretty_N_digits (N.pos p))|].
  right. by exists p.
Qed.

Lemma newId_inj now1 f1 now2 f2 :
  newId now1 f1 = newId now2 f2 -> now1 = now2 /\ f1 = f2.
Proof.
  unfold newId. intros Heq. simpl in Heq. inversion Heq as [Heq']. clear Heq.
  destruct (pretty_Z_shape now1) as [[Hd1 Hne1]|(p & -> & Hp)],
           (pretty_Z_shape now2) as [[Hd2 Hne2]|(q & -> & Hq)].
  - destruct (digits_dash_inj _ _ _ _ Hd1 Hd2 Heq') as [Hpr ->].
    by apply (inj pretty) in Hpr.
  - rewrite Hq in Heq'.
    by destruct (digits_dash_inj _ "" _ (pretty (N.pos q) +:+ "-" +:+ f2)
                   Hd1 eq_refl Heq') as [? _].
  - rewrite Hp in Heq'. symmetry in Heq'.
    by destruct (digits_dash_inj _ "" _ (pretty (N.pos p) +:+ "-" +:+ f1)
                   Hd2 eq_refl Heq') as [? _].
  - rewrite Hp, Hq in Heq'.
    destruct (pretty_N_digits (N.pos p)) as [Hd1 _].
    destruct (pretty_N_digits (N.pos q)) as [Hd2 _].
    assert (pretty (N.pos p) +:+ "-" +:+ f1 = pretty (N.pos q) +:+ "-" +:+ f2)
      as Heq'' by (by inversion Heq').
    destruct (digits_dash_inj _ _ _ _ Hd1 Hd2 Heq'') as [Hpr ->].
    apply (inj pretty) in Hpr. by inversion Hpr.
Qed.

Lemma newId_fresh now f s :
  f ∉ field <$> s -> Forall generatedId s -> newId now f ∉ id <$> s.
Proof.
  intros Hf Hgen Hin. apply list_elem_of_fmap in Hin as (c & Hid & Hc).
  rewrite Forall_forall in Hgen. destruct (Hgen c Hc) as [t Ht].
  rewrite Ht in Hid. apply newId_inj in Hid as [_ ->].
  apply Hf, list_elem_of_fmap. by exists c.
Qed.

(** C7. From a sequence in which no two criteria share a field, no run of
    additions leads to a sequence in which two criteria share one.
    Adding a field that is present returns the sequence as it is; adding
    a field that is not appends one criterion for it after the existing
    criteria, which are unchanged: ascending, with an identity generated
    from the clock reading and the field.  Identities so generated differ
    as soon as the field or the clock reading differs, so the new one is
    none of the identities generated for the criteria present. *)
Theorem handleAddField_one_criterion_per_field :
  (forall (adds : list (Z * string)) s,
     NoDup (field <$> s) ->
     NoDup (field <$>
              fold_left (fun acc add => handleAddField add.1 add.2 acc) adds s)) /\
  (forall now f s, f ∈ field <$> s -> handleAddField now f s = s) /\
  (forall now f s, f <> "" -> f ∉ field <$> s ->
     handleAddField now f s
     = s ++ [ {| id := newId now f; field := f; direction := "asc" |} ]) /\
  (forall now1 f1 now2 f2,
     newId now1 f1 = newId now2 f2 -> now1 = now2 /\ f1 = f2) /\
  (forall now f s,
     f ∉ field <$> s -> Forall generatedId s -> newId now f ∉ id <$> s).
Proof.
  split; [|split; [|split; [|split]]].
  - intros adds. induction adds as [|[now f] adds IH]; intros s Hnd; simpl.
    + done.
    + apply IH. by apply handleAddField_NoDup.
  - apply handleAddField_present.
  - apply handleAddField_new.
  - apply newId_inj.
  - apply newId_fresh.
Qed.

Example add_name_twice :
  handleAddField 1700000000001 "name" (handleAddField 1700000000000 "name" [])
  = [ {| id := "sort-1700000000000-name"; field := "name"; direction := "asc" |} ].
Proof. vm_compute. reflexivity. Qed.

(** ** Loading *)

Lemma expectedProps_truthy c :
  expectedProps c = Some true <-> truthyElement c = true.
Proof.
  destruct c as [|b|n|t|items|props]; simpl.
  all: try (split; intros ?; discriminate).
  unfold expectedProps, getProp.
  destruct (truthy (assoc "id" props)); simpl; [|split; intros ?; discriminate].
  destruct (truthy (assoc "field" props)); simpl; [|split; intros ?; discriminate].
  split; congruence.
Qed.

Lemma every_truthy l :
  every expectedProps l = Some true <-> forallb truthyElement l = true.
Proof.
  induction l as [|c l IH]; simpl; [done|].
  pose proof (expectedProps_truthy c) as [Hc1 Hc2].
  destruct (expectedProps c) as [[|]|]; destruct (truthyElement c); simpl;
    try done; try (split; intros ?; discriminate);
    try (by specialize (Hc1 eq_refl)); try (by specialize (Hc2 eq_refl)).
Qed.

Lemma loadCriteria_array l :
  loadCriteria (JsonText (JArray l))
  = match every expectedProps l with
    | Some true => Restored l
    | Some false => DiscardedWarn
    | None => DiscardedError
    end.
Proof. reflexivity. Qed.

Lemma loadCriteria_truthy l :
  forallb truthyElement l = true ->
  loadCriteria (JsonText (JArray l)) = Restored l.
Proof.
  intros Hall. apply every_truthy in Hall.
  by rewrite loadCriteria_array, Hall.
Qed.

(** C3, as stated, fails: a persisted list whose element names a field
    outside the descriptor table and a direction that is neither ["asc"]
    nor ["desc"] is not discarded; it becomes the criteria sequence. *)
Lemma load_accepts_unknown_field_and_direction :
  specValidElement rogue_element = false /\
  hasDescriptor "bogus" = false /\
  loadCriteria rogue_item = Restored [rogue_element] /\
  criteriaAfterLoad (loadCriteria rogue_item) <> [].
Proof. vm_compute. repeat split; discriminate. Qed.

Lemma loadCriteria_restored_iff item l :
  loadCriteria item = Restored l <->
  item = JsonText (JArray l) /\ forallb truthyElement l = true.
Proof.
  destruct item as [| | |j]; simpl; try (split; [done|intros [? _]; done]).
  destruct j as [|b|n|t|items|props]; simpl;
    try (split; [done|intros [? _]; done]).
  pose proof (every_truthy items) as Hev.
  destruct (every expectedProps items) as [[|]|].
  - split.
    + intros [= <-]. split; [done|]. by apply Hev.
    + by intros [[= <-] _].
  - split; [done|]. intros [[= <-] Hall]. apply Hev in Hall. done.
  - split; [done|]. intros [[= <-] Hall]. apply Hev in Hall. done.
Qed.

(** An element whose three properties are non-empty strings passes the
    validation. *)
Lemma typed_truthyElement c sc :
  asCriterion c = Some sc -> nonEmptyProps sc -> truthyElement c = true.
Proof.
  unfold asCriterion.
  destruct c as [|b|n|t|items|props]; simpl; try done.
  destruct (assoc "id" props) as [[| | |i| |]|]; try done.
  destruct (assoc "field" props) as [[| | |f| |]|]; try done.
  destruct (assoc "direction" props) as [[| | |d| |]|]; try done.
  intros [= <-] (Hi & Hf & Hd). simpl in *.
  apply String.eqb_neq in Hi, Hf, Hd. by rewrite Hi, Hf, Hd.
Qed.

Lemma specValid_typed c :
  specValidElement c = true ->
  exists sc, asCriterion c = Some sc /\ nonEmptyProps sc.
Proof.
  unfold specValidElement. destruct (asCriterion c) as [sc|]; [|done].
  intros H. exists sc. split; [done|].
  apply andb_prop in H as [H Hd]. apply andb_prop in H as [Hi Hf].
  split; [|split].
  - intros Heq. by rewrite Heq in Hi.
  - intros Heq. by rewrite Heq in Hf.
  - intros Heq. by rewrite Heq in Hd.
Qed.

(** The validation tests the three properties for truthiness, not for
    being strings: an accepted value need not be a criteria sequence. *)
Example load_accepts_untyped_element :
  loadCriteria (JsonText (JArray [untyped_element]))
  = Restored [untyped_element] /\
  asCriterion untyped_element = None.
Proof. by split. Qed.

(** C3, amended. Given the item read from storage, the load effect
    accepts it only if it is a list whose every element is an object with
    truthy [id], [field] and [direction] (for strings: non-empty).  The
    field is not looked up in the descriptor table and the direction is
    not compared with ["asc"] and ["desc"]: a list whose every element
    has non-empty strings for the three properties is accepted, whatever
    they name, and every element the specification accepts is such an
    element.  A value that is not a list of elements with the three
    properties truthy is discarded whole: the criteria sequence stays
    empty, nothing is recovered from it, and the item is removed from
    storage.  The two exceptions that parsing and validating can raise -
    that of [JSON.parse] on a text that is no JSON, and the [TypeError]
    of reading a property of [null] - are caught and end in a discard. *)
Theorem loadCriteria_accepts_truthy item :
  (forall l, loadCriteria item = Restored l ->
             item = JsonText (JArray l) /\ forallb truthyElement l = true) /\
  (forall l,
     Forall (fun c => exists sc, asCriterion c = Some sc /\ nonEmptyProps sc)
       l ->
     loadCriteria (JsonText (JArray l)) = Restored l) /\
  (forall c, specValidElement c = true ->
     exists sc, asCriterion c = Some sc /\ nonEmptyProps sc) /\
  ((forall l, item = JsonText (JArray l) -> forallb truthyElement l = false) ->
   criteriaAfterLoad (loadCriteria item) = [] /\
   (item <> NoItem -> item <> EmptyText ->
    (loadCriteria item = DiscardedWarn \/ loadCriteria item = DiscardedError) /\
    storageAfterLoad item (loadCriteria item) = NoItem)) /\
  loadCriteria Unparsable = DiscardedError /\
  (forall l, every expectedProps l = None ->
             loadCriteria (JsonText (JArray l)) = DiscardedError).
Proof.
  split; [|split; [|split; [|split; [|split]]]].
  - intros l. apply loadCriteria_restored_iff.
  - intros l Hl. apply loadCriteria_truthy, forallb_forall.
    intros c Hc. rewrite Forall_forall in Hl.
    destruct (Hl c) as (sc & Hsc & Hne); [by apply list_elem_of_In|].
    by apply (typed_truthyElement c sc).
  - apply specValid_typed.
  - intros Hbad. destruct item as [| | |j]; simpl; try by auto.
    destruct j as [|b|n|t|items|props]; simpl; try by auto.
    pose proof (every_truthy items) as Hev.
    destruct (every expectedProps items) as [[|]|]; simpl; try by auto.
    rewrite (Hbad items eq_refl) in Hev.
    by destruct Hev as [Hev _]; specialize (Hev eq_refl).
  - reflexivity.
  - intros l Hl. simpl. by rewrite Hl.
Qed.

(** ** Saving and loading back *)

(** What every criterion made by the store satisfies: none of its three
    properties is the empty string. *)
Lemma newId_not_empty now f : newId now f <> "".
Proof. unfold newId. simpl. discriminate. Qed.

Lemma applyOp_truthy s op :
  Forall (fun c => id c <> "" /\ field c <> "" /\ direction c <> "") s ->
  Forall (fun c => id c <> "" /\ field c <> "" /\ direction c <> "")
    (applyOp s op).
Proof.
  intros Hs. destruct op as [now f|target|target|activeId overId]; simpl.
  - unfold handleAddField.
    destruct (String.eqb_spec f "") as [->|Hf]; simpl; [done|].
    destruct (existsb _ s); simpl; [done|].
    apply Forall_app. split; [done|]. constructor; [|constructor].
    simpl. split; [apply newId_not_empty|]. split; [done|discriminate].
  - unfold handleRemoveCriterion. rewrite Forall_forall in *.
    intros c Hc. apply list_elem_of_In, filter_In in Hc as [Hc _].
    apply Hs. by apply list_elem_of_In.
  - unfold handleToggleDirection. rewrite Forall_forall in *.
    intros c Hc. apply list_elem_of_In, in_map_iff in Hc as (c0 & <- & Hc0).
    apply list_elem_of_In, Hs in Hc0 as (Hi & Hf & Hd).
    destruct (String.eqb (id c0) target); simpl; [|done].
    split; [done|]. split; [done|].
    by destruct (String.eqb (direction c0) "asc").
  - by rewrite handleDragEnd_perm.
Qed.

Lemma runOps_truthy ops :
  Forall (fun c => id c <> "" /\ field c <> "" /\ direction c <> "")
    (runOps ops).
Proof.
  assert (forall s,
            Forall (fun c => id c <> "" /\ field c <> "" /\ direction c <> "") s ->
            Forall (fun c => id c <> "" /\ field c <> "" /\ direction c <> "")
              (fold_left applyOp ops s)) as Hrun.
  { induction ops as [|op ops IH]; intros s Hs; simpl; [done|].
    apply IH. by apply applyOp_truthy. }
  apply Hrun. constructor.
Qed.

(** The identities of the criteria the store holds are the ones it
    generated, and no two of them are equal. *)
Lemma applyOp_generated s op :
  Forall generatedId s /\ NoDup (field <$> s) ->
  Forall generatedId (applyOp s op) /\ NoDup (field <$> applyOp s op).
Proof.
  intros [Hs Hnd]. destruct op as [now f|target|target|activeId overId]; simpl.
  - split; [|by apply handleAddField_NoDup].
    unfold handleAddField.
    destruct (String.eqb f ""); simpl; [done|].
    destruct (existsb _ s); simpl; [done|].
    apply Forall_app. split; [done|]. constructor; [|constructor].
    by exists now.
  - unfold handleRemoveCriterion. split.
    + rewrite Forall_forall in *.
      intros c Hc. apply list_elem_of_In, filter_In in Hc as [Hc _].
      apply Hs. by apply list_elem_of_In.
    + clear Hs. induction s as [|c s IH]; simpl; [done|].
      apply NoDup_cons in Hnd as [Hc Hnd].
      destruct (negb (String.eqb (id c) target)); simpl; [|by apply IH].
      apply NoDup_cons. split; [|by apply IH].
      intros Hin. apply Hc. apply list_elem_of_fmap in Hin as (c' & -> & Hc').
      apply list_elem_of_fmap. exists c'. split; [done|].
      apply list_elem_of_In. apply list_elem_of_In, filter_In in Hc' as [Hc' _].
      done.
  - unfold handleToggleDirection.
    assert (field <$> List.map
              (fun c => if String.eqb (id c) target
                        then {| id := id c; field := field c;
                                direction := if String.eqb (direction c) "asc"
                                             then "desc" else "asc" |}
                        else c) s
            = field <$> s) as Hfields.
    { clear. induction s as [|c s IH]; [done|].
      cbn [List.map]. rewrite !fmap_cons, IH. f_equal.
      by destruct (String.eqb (id c) target). }
    split; [|by rewrite Hfields].
    rewrite Forall_forall in *.
    intros c Hc. apply list_elem_of_In, in_map_iff in Hc as (c0 & <- & Hc0).
    apply list_elem_of_In, Hs in Hc0 as [t Ht].
    destruct (String.eqb (id c0) target); by exists t.
  - by rewrite !handleDragEnd_perm.
Qed.

Lemma runOps_generated ops :
  Forall generatedId (runOps ops) /\ NoDup (id <$> runOps ops).
Proof.
  assert (forall s,
            Forall generatedId s /\ NoDup (field <$> s) ->
            Forall generatedId (fold_left applyOp ops s) /\
            NoDup (field <$> fold_left applyOp ops s)) as Hrun.
  { induction ops as [|op ops IH]; intros s Hs; simpl; [done|].
    apply IH. by apply applyOp_generated. }
  destruct (Hrun []) as [Hgen Hnd]; [split; constructor|].
  split; [done|]. fold (runOps ops) in Hnd, Hgen.
  induction (runOps ops) as [|c s IH]; [constructor|].
  rewrite fmap_cons in *. apply NoDup_cons in Hnd as [Hc Hnd].
  apply Forall_cons in Hgen as [[t Ht] Hgen].
  apply NoDup_cons. split; [|by apply IH].
  rewrite Ht. by apply newId_fresh.
Qed.

Lemma asCriterion_criterionJson c : asCriterion (criterionJson c) = Some c.
Proof. destruct c. reflexivity. Qed.

Lemma truthyElement_criterionJson c :
  id c <> "" -> field c <> "" -> direction c <> "" ->
  truthyElement (criterionJson c) = true.
Proof.
  intros Hi Hf Hd. apply String.eqb_neq in Hi, Hf, Hd.
  unfold truthyElement, criterionJson. simpl. by rewrite Hi, Hf, Hd.
Qed.

(** C9. For every criteria sequence the store reaches from the empty one
    by additions, removals, direction toggles and reorderings, the load
    effect applied to what the save effect wrote restores a sequence that
    is structurally the one saved. *)
Theorem save_load_round_trip ops :
  loadCriteria (saveCriteria (runOps ops))
  = Restored (criterionJson <$> runOps ops) /\
  mapM asCriterion
    (criteriaAfterLoad (loadCriteria (saveCriteria (runOps ops))))
  = Some (runOps ops).
Proof.
  assert (loadCriteria (saveCriteria (runOps ops))
          = Restored (criterionJson <$> runOps ops)) as Hload.
  { apply loadCriteria_truthy.
    apply forallb_forall. intros j Hj.
    apply in_map_iff in Hj as (c & <- & Hc).
    pose proof (runOps_truthy ops) as Hall. rewrite Forall_forall in Hall.
    apply list_elem_of_In, Hall in Hc as (Hi & Hf & Hd).
    by apply truthyElement_criterionJson. }
  split; [done|]. rewrite Hload. simpl.
  apply mapM_Some, Forall2_fmap_l, Forall_Forall2_diag, Forall_forall.
  intros c _. apply asCriterion_criterionJson.
Qed.

Example round_trip_after_a_session :
  let s := runOps [ OpAdd 1700000000000 "name";
                    OpAdd 1700000000500 "createdAt";
                    OpToggle "sort-1700000000500-createdAt";
                    OpReorder "sort-1700000000500-createdAt"
                              (Some "sort-1700000000000-name");
                    OpAdd 1700000000900 "name" ] in
  s = [ {| id := "sort-1700000000500-createdAt"; field := "createdAt";
           direction := "desc" |};
        {| id := "sort-1700000000000-name"; field := "name";
           direction := "asc" |} ] /\
  criteriaAfterLoad (loadCriteria (saveCriteria s)) = criterionJson <$> s.
Proof. vm_compute. auto. Qed.

(** ** Two remarks on the rest of the model *)

(** A discarded item is removed from storage. *)
Lemma storageAfterLoad_discarded item :
  loadCriteria item = DiscardedWarn \/ loadCriteria item = DiscardedError ->
  storageAfterLoad item (loadCriteria item) = NoItem.
Proof. by intros [-> | ->]. Qed.

(** The fields offered for selection are those no criterion uses, so
    adding one of them always appends. *)
Lemma availableFields_unused s f :
  f ∈ availableFields s -> fd_id f ∉ field <$> s.
Proof.
  unfold availableFields. intros Hf.
  apply list_elem_of_In, filter_In in Hf as [_ Hf].
  apply negb_true_iff in Hf. intros Hin.
  apply existsb_field in Hin. congruence.
Qed.

Lemma availableFields_add now s f :
  f ∈ availableFields s ->
  handleAddField now (fd_id f) s
  = s ++ [ {| id := newId now (fd_id f); field := fd_id f; direction := "asc" |} ].
Proof.
  intros Hf. apply handleAddField_new; [|by apply availableFields_unused].
  unfold availableFields in Hf.
  apply list_elem_of_In, filter_In in Hf as [Hf _].
  unfold clientFields in Hf. simpl in Hf.
  destruct Hf as [<-|[<-|[<-|[<-|[<-|[]]]]]]; discriminate.
Qed.

(** * Further properties *)

(** ** The evaluator: the order of the output *)

(** X20. With a consistent collation, at least one criterion and no
    Invalid Date among the timestamps the criteria name,
    [applyMultiSort] returns a new array that holds every record of the
    input exactly once; of two records of the output the earlier one comes
    before the later one in priority order of the criteria (each with its
    direction), or the two compare equal under all of them; and the
    records that compare equal under all criteria keep the relative order
    they have in the input. *)
Theorem applyMultiSort_sorted_stable host clients criteria :
  Consistent (localeCompare host) ->
  criteria <> [] ->
  Forall (datesValid criteria) clients ->
  let out := applyMultiSort host clients criteria in
  out ≡ₚ clients /\
  (forall i j a b, (i < j)%nat -> out !! i = Some a -> out !! j = Some b ->
     lexBefore host criteria a b \/ tied host criteria a b) /\
  (forall x, filter (tied host criteria x) out
             = filter (tied host criteria x) clients) /\
  (forall (h : heap) r, h !! r = Some clients ->
     exists r', applyMultiSortH host r criteria h = Some (r', <[r' := out]> h)
                /\ h !! r' = None).
Proof.
  intros Hc Hne Hv out. split; [apply applyMultiSort_perm|].
  assert (out = jsSort (refCompare host criteria) clients) as Hout.
  { unfold out. rewrite applyMultiSort_valid by done. by destruct criteria. }
  pose proof (refCompare_consistent host Hc criteria) as Hcc.
  split; [|split].
  - intros i j a b Hij Hi Hj.
    pose proof (jsSort_sorted _ Hcc clients) as Hs. rewrite <- Hout in Hs.
    pose proof (StronglySorted_lookup_lt _ _ _ _ _ _ Hs Hij Hi Hj) as Hle.
    simpl in Hle.
    assert (datesValid criteria a /\ datesValid criteria b) as [Ha Hb].
    { rewrite Forall_forall in Hv.
      split; apply Hv; rewrite <- (jsSort_perm (refCompare host criteria));
        rewrite <- Hout; by eapply list_elem_of_lookup_2. }
    pose proof (compareClients_ref host criteria a b Ha Hb) as Hab.
    destruct (Z.eq_dec (refCompare host criteria a b) 0) as [H0|H0].
    + right. by apply ref_tied.
    + left. apply compareClients_neg. eexists. split; [exact Hab|lia].
  - intros x. by apply applyMultiSort_stable_valid.
  - intros h r Hr. exists (fresh (dom h)).
    split; [by apply applyMultiSortH_spec|apply fresh_not_allocated].
Qed.

Example scenario_order :
  applyMultiSort codeUnitHost [bob; amy_old; amy_new] by_name_then_newest
  = [amy_new; amy_old; bob].
Proof. vm_compute. reflexivity. Qed.

Lemma all_dates_valid criteria :
  Forall (datesValid criteria) [bob; amy_old; amy_new].
Proof.
  repeat constructor; apply Forall_forall; intros c _ Hd;
    unfold isDateField in Hd; apply orb_prop in Hd as [Hd|Hd];
    apply String.eqb_eq in Hd; rewrite Hd; discriminate.
Qed.

Lemma applyMultiSort_sorted_stable_witness :
  Consistent (localeCompare codeUnitHost) /\
  by_name_then_newest <> [] /\
  Forall (datesValid by_name_then_newest) [bob; amy_old; amy_new] /\
  let out := applyMultiSort codeUnitHost [bob; amy_old; amy_new]
               by_name_then_newest in
  out ≡ₚ [bob; amy_old; amy_new] /\
  (forall i j a b, (i < j)%nat -> out !! i = Some a -> out !! j = Some b ->
     lexBefore codeUnitHost by_name_then_newest a b \/
     tied codeUnitHost by_name_then_newest a b) /\
  (forall x, filter (tied codeUnitHost by_name_then_newest x) out
             = filter (tied codeUnitHost by_name_then_newest x)
                 [bob; amy_old; amy_new]) /\
  (forall (h : heap) r, h !! r = Some [bob; amy_old; amy_new] ->
     exists r', applyMultiSortH codeUnitHost r by_name_then_newest h
                = Some (r', <[r' := out]> h)
                /\ h !! r' = None).
Proof.
  split; [exact codeUnitHost_consistent|]. split; [discriminate|].
  split; [apply all_dates_valid|].
  apply (applyMultiSort_sorted_stable codeUnitHost [bob; amy_old; amy_new]
           by_name_then_newest codeUnitHost_consistent);
    [discriminate|apply all_dates_valid].
Defined.

(** ** The evaluator: sorting again, and sorting in two passes *)

Lemma jsSort_sorted_id {A} (compareFn : A -> A -> Z) l :
  StronglySorted (fun a b => compareFn a b <= 0) l -> jsSort compareFn l = l.
Proof.
  induction 1 as [|x l Hs IH Hx]; simpl; [done|].
  rewrite IH. destruct Hx as [|y l Hy Hl]; simpl; [done|].
  by destruct (Z.ltb_spec 0 (compareFn x y)); [lia|].
Qed.

Lemma StronglySorted_split {A} (R : relation A) l :
  StronglySorted R l <-> forall l1 a l2, l = l1 ++ a :: l2 -> Forall (R a) l2.
Proof.
  split.
  - intros Hs l1 a l2 ->. apply StronglySorted_app_1_r in Hs.
    by apply StronglySorted_cons in Hs as [? _].
  - induction l as [|x l IH]; intros Hall; [constructor|].
    constructor.
    + apply IH. intros l1 a l2 ->. by apply (Hall (x :: l1) a l2).
    + by apply (Hall [] x l).
Qed.

Lemma StronglySorted_filter {A} (R : relation A) (P : A -> Prop)
    `{!forall x, Decision (P x)} l :
  StronglySorted R l -> StronglySorted R (filter P l).
Proof.
  induction 1 as [|x l Hs IH Hx]; [constructor|].
  rewrite filter_cons. destruct (decide (P x)); [|done].
  constructor; [done|]. rewrite Forall_forall in *.
  intros y Hy. apply list_elem_of_filter in Hy as [_ Hy]. auto.
Qed.

Lemma refCompare_app host higher lower a b :
  refCompare host (higher ++ lower) a b
  = if negb (refCompare host higher a b =? 0)
    then refCompare host higher a b
    else refCompare host lower a b.
Proof.
  induction higher as [|c higher IH].
  { reflexivity. }
  rewrite <- app_comm_cons. cbn [refCompare]. rewrite IH.
  destruct (refDirected host c a b =? 0) eqn:Hd; simpl; [done|].
  by rewrite Hd.
Qed.

Lemma refCompare_app_zero host higher lower a b :
  refCompare host (higher ++ lower) a b = 0 <->
  refCompare host higher a b = 0 /\ refCompare host lower a b = 0.
Proof.
  rewrite refCompare_app.
  destruct (Z.eqb_spec (refCompare host higher a b) 0); simpl; lia.
Qed.

Lemma jsSort_two_passes host higher lower clients :
  Consistent (localeCompare host) ->
  jsSort (refCompare host higher)
    (jsSort (refCompare host lower) clients)
  = jsSort (refCompare host (higher ++ lower)) clients.
Proof.
  intros Hc.
  pose proof (refCompare_consistent host Hc higher) as HcH.
  pose proof (refCompare_consistent host Hc lower) as HcL.
  pose proof (refCompare_consistent host Hc (higher ++ lower)) as HcHL.
  set (cH := refCompare host higher) in *.
  set (cL := refCompare host lower) in *.
  set (M := jsSort cL clients).
  apply jsSort_unique; [done|..].
  - unfold M. by rewrite !jsSort_perm.
  - apply StronglySorted_split. intros l1 a l2 Heq.
    apply Forall_forall. intros b Hb.
    pose proof (jsSort_sorted cH HcH M) as HsH.
    pose proof (proj1 (StronglySorted_split _ _) HsH l1 a l2 Heq) as Hab.
    rewrite Forall_forall in Hab. specialize (Hab b Hb).
    rewrite refCompare_app. fold cH cL.
    destruct (Z.eqb_spec (cH a b) 0) as [H0|H0]; simpl; [|done].
    pose proof (jsSort_stable cH HcH a M) as Hst. rewrite Heq in Hst.
    rewrite filter_app, filter_cons in Hst.
    rewrite decide_True in Hst by (by apply compare_refl).
    pose proof (StronglySorted_filter _ (fun y => cH a y = 0) _
                  (jsSort_sorted cL HcL clients)) as HsF.
    fold M in HsF. rewrite <- Hst in HsF.
    pose proof (proj1 (StronglySorted_split _ _) HsF _ _ _ eq_refl) as HF.
    rewrite Forall_forall in HF. apply HF.
    by apply list_elem_of_filter.
  - intros x.
    assert (forall l : list Client,
              filter (fun y => refCompare host (higher ++ lower) x y = 0) l
              = filter (fun y => cL x y = 0) (filter (fun y => cH x y = 0) l))
      as Hsplit.
    { intros l. rewrite list_filter_filter. apply list_filter_iff.
      intros y. rewrite refCompare_app_zero. fold cH cL. tauto. }
    rewrite !Hsplit. rewrite (jsSort_stable cH HcH x M).
    rewrite !list_filter_filter.
    rewrite (list_filter_iff _ (fun y => cH x y = 0 /\ cL x y = 0)) by tauto.
    rewrite (list_filter_iff (fun y => cL x y = 0 /\ cH x y = 0)
               (fun y => cH x y = 0 /\ cL x y = 0) clients) by tauto.
    rewrite <- !list_filter_filter. unfold M.
    by rewrite (jsSort_stable cL HcL x clients).
Qed.

Lemma datesValid_app higher lower a :
  datesValid (higher ++ lower) a <->
  datesValid higher a /\ datesValid lower a.
Proof. unfold datesValid. apply Forall_app. Qed.

(** X1. Wherever the function handed to [sort] answers with numbers it is
    a consistent comparator, as soon as the collation is one: swapping the
    arguments flips the sign, and "not after" is transitive.  It answers
    with a number for any two records that hold no Invalid Date under the
    fields of the criteria, and such a record compares equal to itself. *)
Theorem comparator_is_consistent host criteria :
  Consistent (localeCompare host) ->
  (forall a b, datesValid criteria a -> datesValid criteria b ->
     exists z, compareClients host criteria a b = Num z) /\
  (forall a, datesValid criteria a -> compareClients host criteria a a = Num 0) /\
  (forall a b x y,
     compareClients host criteria a b = Num x ->
     compareClients host criteria b a = Num y ->
     Z.sgn y = - Z.sgn x) /\
  (forall a b c x y z,
     compareClients host criteria a b = Num x ->
     compareClients host criteria b c = Num y ->
     compareClients host criteria a c = Num z ->
     x <= 0 -> y <= 0 -> z <= 0).
Proof.
  intros Hc. pose proof (refCompare_consistent host Hc criteria) as Hcc.
  split; [|split; [|split]].
  - intros a b Ha Hb. eexists. by apply compareClients_ref.
  - intros a Ha. rewrite (compareClients_ref host criteria a a Ha Ha).
    f_equal. by apply compare_refl.
  - intros a b x y Hx Hy.
    apply compareClients_num_ref in Hx, Hy. subst x y. apply Hcc.
  - intros a b c x y z Hx Hy Hz.
    apply compareClients_num_ref in Hx, Hy, Hz. subst x y z. apply Hcc.
Qed.

Lemma comparator_is_consistent_witness :
  Consistent (localeCompare codeUnitHost) /\
  (forall a b, datesValid by_name_then_newest a ->
     datesValid by_name_then_newest b ->
     exists z, compareClients codeUnitHost by_name_then_newest a b = Num z) /\
  (forall a, datesValid by_name_then_newest a ->
     compareClients codeUnitHost by_name_then_newest a a = Num 0) /\
  (forall a b x y,
     compareClients codeUnitHost by_name_then_newest a b = Num x ->
     compareClients codeUnitHost by_name_then_newest b a = Num y ->
     Z.sgn y = - Z.sgn x) /\
  (forall a b c x y z,
     compareClients codeUnitHost by_name_then_newest a b = Num x ->
     compareClients codeUnitHost by_name_then_newest b c = Num y ->
     compareClients codeUnitHost by_name_then_newest a c = Num z ->
     x <= 0 -> y <= 0 -> z <= 0).
Proof.
  split; [exact codeUnitHost_consistent|].
  exact (comparator_is_consistent codeUnitHost by_name_then_newest
           codeUnitHost_consistent).
Defined.

(** X2. On records that hold no Invalid Date under the fields of the
    criteria, sorting is idempotent: sorting the output again by the same
    criteria returns it unchanged. *)
Theorem applyMultiSort_idempotent host clients criteria :
  Consistent (localeCompare host) ->
  Forall (datesValid criteria) clients ->
  applyMultiSort host (applyMultiSort host clients criteria) criteria
  = applyMultiSort host clients criteria.
Proof.
  intros Hc Hv.
  assert (Forall (datesValid criteria) (applyMultiSort host clients criteria))
    as Hv' by (by rewrite applyMultiSort_perm).
  rewrite (applyMultiSort_valid host _ criteria Hv').
  rewrite (applyMultiSort_valid host clients criteria Hv).
  destruct (length criteria =? 0)%nat; [done|].
  apply jsSort_sorted_id, jsSort_sorted.
  by apply refCompare_consistent.
Qed.

Lemma applyMultiSort_idempotent_witness :
  Consistent (localeCompare codeUnitHost) /\
  Forall (datesValid by_name_then_newest) [bob; amy_old; amy_new] /\
  applyMultiSort codeUnitHost
    (applyMultiSort codeUnitHost [bob; amy_old; amy_new] by_name_then_newest)
    by_name_then_newest
  = applyMultiSort codeUnitHost [bob; amy_old; amy_new] by_name_then_newest.
Proof.
  split; [exact codeUnitHost_consistent|]. split; [apply all_dates_valid|].
  exact (applyMultiSort_idempotent codeUnitHost [bob; amy_old; amy_new]
           by_name_then_newest codeUnitHost_consistent
           (all_dates_valid by_name_then_newest)).
Defined.

(** X3. On records that hold no Invalid Date under the fields of the
    criteria, sorting in two passes - first by the criteria of lower
    priority, then by those of higher priority - gives what one call with
    the higher criteria followed by the lower ones gives. *)
Theorem applyMultiSort_two_passes host clients higher lower :
  Consistent (localeCompare host) ->
  Forall (datesValid (higher ++ lower)) clients ->
  applyMultiSort host (applyMultiSort host clients lower) higher
  = applyMultiSort host clients (higher ++ lower).
Proof.
  intros Hc Hv.
  assert (Forall (datesValid higher) clients /\
          Forall (datesValid lower) clients) as [HvH HvL].
  { split; (eapply Forall_impl; [exact Hv|]); intros a Ha;
      by apply datesValid_app in Ha as [? ?]. }
  assert (Forall (datesValid higher) (applyMultiSort host clients lower))
    as HvH' by (by rewrite applyMultiSort_perm).
  rewrite (applyMultiSort_valid host _ higher HvH').
  rewrite (applyMultiSort_valid host clients lower HvL).
  rewrite (applyMultiSort_valid host clients (higher ++ lower) Hv).
  destruct higher as [|c higher]; [done|].
  destruct lower as [|d lower].
  { by rewrite app_nil_r. }
  simpl. apply (jsSort_two_passes host (c :: higher) (d :: lower) clients Hc).
Qed.

Lemma applyMultiSort_two_passes_witness :
  Consistent (localeCompare codeUnitHost) /\
  Forall (datesValid ([by_name_desc] ++ [by_created_desc]))
    [bob; amy_old; amy_new] /\
  applyMultiSort codeUnitHost
    (applyMultiSort codeUnitHost [bob; amy_old; amy_new] [by_created_desc])
    [by_name_desc]
  = applyMultiSort codeUnitHost [bob; amy_old; amy_new]
      ([by_name_desc] ++ [by_created_desc]).
Proof.
  split; [exact codeUnitHost_consistent|]. split; [apply all_dates_valid|].
  exact (applyMultiSort_two_passes codeUnitHost [bob; amy_old; amy_new]
           [by_name_desc] [by_created_desc] codeUnitHost_consistent
           (all_dates_valid _)).
Defined.

(** X4. On records that hold no Invalid Date under the fields of the
    criteria, criteria of lower priority never disturb the order the
    criteria of higher priority ask for: in the output for
    [higher ++ lower], of two records the earlier one comes before the
    later one under [higher] alone, or the two compare equal under
    [higher]. *)
Theorem lower_criteria_keep_higher_order host clients higher lower :
  Consistent (localeCompare host) ->
  Forall (datesValid (higher ++ lower)) clients ->
  forall i j a b,
    (i < j)%nat ->
    applyMultiSort host clients (higher ++ lower) !! i = Some a ->
    applyMultiSort host clients (higher ++ lower) !! j = Some b ->
    lexBefore host higher a b \/ tied host higher a b.
Proof.
  intros Hc Hv i j a b Hij Hi Hj.
  assert (datesValid higher a /\ datesValid higher b) as [Ha Hb].
  { pose proof (proj1 (Forall_forall _ _) Hv) as Hin.
    assert (forall x, x ∈ applyMultiSort host clients (higher ++ lower) ->
              datesValid higher x) as Hout.
    { intros x Hx. rewrite applyMultiSort_perm in Hx.
      by apply Hin, datesValid_app in Hx as [? _]. }
    split; apply Hout; by eapply list_elem_of_lookup_2. }
  pose proof (compareClients_ref host higher a b Ha Hb) as Hab.
  destruct (Z.eq_dec (refCompare host higher a b) 0) as [H0|H0].
  { right. by apply ref_tied. }
  left. apply compareClients_neg. eexists. split; [exact Hab|].
  rewrite (applyMultiSort_valid host clients (higher ++ lower) Hv) in Hi, Hj.
  destruct (length (higher ++ lower) =? 0)%nat eqn:Hlen.
  { apply Nat.eqb_eq, length_zero_iff_nil, app_eq_nil in Hlen as [-> _].
    by simpl in H0. }
  pose proof (jsSort_sorted _ (refCompare_consistent host Hc (higher ++ lower))
                clients) as Hs.
  pose proof (StronglySorted_lookup_lt _ _ _ _ _ _ Hs Hij Hi Hj) as Hle.
  simpl in Hle. rewrite refCompare_app in Hle.
  destruct (Z.eqb_spec (refCompare host higher a b) 0); simpl in Hle; lia.
Qed.

Lemma lower_criteria_keep_higher_order_witness :
  Consistent (localeCompare codeUnitHost) /\
  Forall (datesValid ([by_name_desc] ++ [by_created_desc]))
    [bob; amy_old; amy_new] /\
  forall i j a b,
    (i < j)%nat ->
    applyMultiSort codeUnitHost [bob; amy_old; amy_new]
      ([by_name_desc] ++ [by_created_desc]) !! i = Some a ->
    applyMultiSort codeUnitHost [bob; amy_old; amy_new]
      ([by_name_desc] ++ [by_created_desc]) !! j = Some b ->
    lexBefore codeUnitHost [by_name_desc] a b \/
    tied codeUnitHost [by_name_desc] a b.
Proof.
  split; [exact codeUnitHost_consistent|]. split; [apply all_dates_valid|].
  exact (lower_criteria_keep_higher_order codeUnitHost [bob; amy_old; amy_new]
           [by_name_desc] [by_created_desc] codeUnitHost_consistent
           (all_dates_valid _)).
Defined.

(** ** The evaluator: what it reads of a criterion *)

Lemma compareClients_same_ordering host cs cs' a b :
  Forall2 sameOrdering cs cs' ->
  compareClients host cs a b = compareClients host cs' a b.
Proof.
  induction 1 as [|c c' cs cs' [Hf Hd] _ IH]; [done|].
  rewrite !compareClients_cons, IH.
  assert (directed host c a b = directed host c' a b) as ->; [|done].
  unfold directed. rewrite Hf.
  destruct (String.eqb_spec (direction c) "asc") as [H1|H1];
    destruct (String.eqb_spec (direction c') "asc") as [H2|H2]; tauto.
Qed.

(** X5. The evaluator reads of a criterion its field and whether its
    direction is ["asc"], nothing else: identities play no part, and any
    direction other than ["asc"] - ["desc"] or not - sorts descending. *)
Theorem applyMultiSort_same_ordering host clients criteria criteria' :
  Forall2 sameOrdering criteria criteria' ->
  applyMultiSort host clients criteria = applyMultiSort host clients criteria'.
Proof.
  intros Hsame. unfold applyMultiSort.
  rewrite (Forall2_length _ _ _ Hsame).
  destruct (length criteria' =? 0)%nat; [done|].
  apply jsSort_ext. intros a b _ _.
  by rewrite (compareClients_same_ordering host _ _ a b Hsame).
Qed.

Lemma applyMultiSort_same_ordering_witness :
  Forall2 sameOrdering [by_name_sideways] [by_name_desc] /\
  applyMultiSort codeUnitHost [bob; amy_old; amy_new] [by_name_sideways]
  = applyMultiSort codeUnitHost [bob; amy_old; amy_new] [by_name_desc].
Proof.
  assert (Forall2 sameOrdering [by_name_sideways] [by_name_desc]) as Hsame.
  { constructor; [|constructor]. split; [reflexivity|].
    split; intros H; discriminate H. }
  split; [exact Hsame|].
  exact (applyMultiSort_same_ordering codeUnitHost [bob; amy_old; amy_new]
           [by_name_sideways] [by_name_desc] Hsame).
Defined.

(** ** The evaluator: timestamps *)

Lemma by_instant_consistent f :
  Consistent
    (fun a b : Client =>
       roundDouble (sortCompare (instantOf a f) - sortCompare (instantOf b f))).
Proof.
  split.
  - intros a b. rewrite !roundDouble_sgn. lia.
  - intros a b c. rewrite !roundDouble_nonpos. lia.
Qed.

(** X6. Sorting by a timestamp field needs nothing of the collation and,
    when no record holds an Invalid Date under the field, is
    chronological: every record is compared at an instant - a missing
    timestamp counting as the epoch - and, ascending, of two records of
    the output the earlier one has the earlier or the same instant; in
    any other direction, the later or the same. *)
Theorem timestamp_sort_is_chronological host f c clients :
  isDateField f = true ->
  field c = f ->
  Forall (validUnder f) clients ->
  forall i j a b,
    (i < j)%nat ->
    applyMultiSort host clients [c] !! i = Some a ->
    applyMultiSort host clients [c] !! j = Some b ->
    exists s t,
      instantOf a f = Num s /\ instantOf b f = Num t /\
      if String.eqb (direction c) "asc" then s <= t else t <= s.
Proof.
  intros Hf Hc Hv i j a b Hij Hi Hj.
  pose proof (proj1 (Forall_forall _ _) Hv) as Hin.
  assert (forall x, x ∈ applyMultiSort host clients [c] ->
            exists t, instantOf x f = Num t) as Hinst.
  { intros x Hx. rewrite applyMultiSort_perm in Hx.
    apply instantOf_valid; auto. }
  destruct (Hinst a (list_elem_of_lookup_2 _ _ _ Hi)) as [s Hs].
  destruct (Hinst b (list_elem_of_lookup_2 _ _ _ Hj)) as [t Ht].
  exists s, t. split; [done|]. split; [done|].
  assert (forall x y, x ∈ clients -> y ∈ clients ->
            fieldCompare host (field c) x y
            = Num (roundDouble (sortCompare (instantOf x f)
                                - sortCompare (instantOf y f)))) as Hcmp.
  { intros x y Hx Hy. rewrite Hc, fieldCompare_date by done.
    destruct (instantOf_valid f x Hf (Hin x Hx)) as [tx ->].
    by destruct (instantOf_valid f y Hf (Hin y Hy)) as [ty ->]. }
  unfold applyMultiSort in Hi, Hj. cbn [length Nat.eqb] in Hi, Hj.
  destruct (String.eqb (direction c) "asc") eqn:Hd.
  - rewrite (jsSort_ext _
               (fun x y => roundDouble (sortCompare (instantOf x f)
                                        - sortCompare (instantOf y f))))
      in Hi, Hj
      by (intros x y Hx Hy; rewrite compareClients_single; unfold directed;
          by rewrite Hd, Hcmp).
    pose proof (jsSort_sorted _ (by_instant_consistent f) clients) as Hsorted.
    pose proof (StronglySorted_lookup_lt _ _ _ _ _ _ Hsorted Hij Hi Hj) as Hle.
    simpl in Hle. rewrite Hs, Ht, roundDouble_nonpos in Hle. simpl in Hle. lia.
  - rewrite (jsSort_ext _
               (fun x y => - roundDouble (sortCompare (instantOf x f)
                                          - sortCompare (instantOf y f))))
      in Hi, Hj
      by (intros x y Hx Hy; rewrite compareClients_single; unfold directed;
          by rewrite Hd, Hcmp).
    pose proof (jsSort_sorted _ (negated_consistent _ (by_instant_consistent f))
                  clients) as Hsorted.
    pose proof (StronglySorted_lookup_lt _ _ _ _ _ _ Hsorted Hij Hi Hj) as Hle.
    simpl in Hle. rewrite Hs, Ht in Hle. simpl in Hle.
    pose proof (roundDouble_neg (s - t)). lia.
Qed.

Lemma timestamp_sort_is_chronological_witness :
  isDateField "createdAt" = true /\
  field by_created_desc = "createdAt" /\
  Forall (validUnder "createdAt") [bob; undated; amy_new; pre_epoch] /\
  forall i j a b,
    (i < j)%nat ->
    applyMultiSort codeUnitHost [bob; undated; amy_new; pre_epoch]
      [by_created_desc] !! i = Some a ->
    applyMultiSort codeUnitHost [bob; undated; amy_new; pre_epoch]
      [by_created_desc] !! j = Some b ->
    exists s t,
      instantOf a "createdAt" = Num s /\ instantOf b "createdAt" = Num t /\
      if String.eqb (direction by_created_desc) "asc" then s <= t else t <= s.
Proof.
  assert (Forall (validUnder "createdAt") [bob; undated; amy_new; pre_epoch])
    as Hv by (repeat constructor; intros _; discriminate).
  split; [reflexivity|]. split; [reflexivity|]. split; [exact Hv|].
  exact (timestamp_sort_is_chronological codeUnitHost "createdAt"
           by_created_desc [bob; undated; amy_new; pre_epoch]
           eq_refl eq_refl Hv).
Defined.

(** ** The criteria store: toggling *)

Lemma directed_toggled host c a b :
  directed host
    {| id := id c; field := field c;
       direction := if String.eqb (direction c) "asc" then "desc" else "asc" |}
    a b
  = numNeg (directed host c a b).
Proof.
  unfold directed. simpl.
  destruct (String.eqb (direction c) "asc"); simpl; [done|].
  by rewrite numNeg_involutive.
Qed.

Lemma handleToggleDirection_cons t c s :
  handleToggleDirection t (c :: s)
  = (if String.eqb (id c) t
     then {| id := id c; field := field c;
             direction := if String.eqb (direction c) "asc"
                          then "desc" else "asc" |}
     else c) :: handleToggleDirection t s.
Proof. reflexivity. Qed.

(** X7. Toggling keeps the criteria in place, with their identities and
    fields, and reverses the comparison of exactly those whose identity
    is the target - whatever their direction was, ["asc"], ["desc"] or
    any other string. *)
Theorem handleToggleDirection_reverses host target sortCriteria :
  Forall2
    (fun c c' =>
       id c' = id c /\ field c' = field c /\
       forall a b,
         directed host c' a b
         = if String.eqb (id c) target then numNeg (directed host c a b)
           else directed host c a b)
    sortCriteria (handleToggleDirection target sortCriteria).
Proof.
  induction sortCriteria as [|c s IH]; [constructor|].
  rewrite handleToggleDirection_cons. constructor; [|exact IH].
  destruct (String.eqb (id c) target); simpl; [|done].
  split; [done|]. split; [done|]. intros a b. apply directed_toggled.
Qed.

(** X8. Toggling the same criterion twice restores the comparator, and
    restores the sequence itself when the directions are ["asc"] or
    ["desc"].  In general the criteria whose identity is the target end
    with the direction ["asc"] when they had it and with ["desc"]
    otherwise, and nothing else changes: a direction that is neither
    ["asc"] nor ["desc"] becomes ["desc"]. *)
Theorem handleToggleDirection_twice host target sortCriteria :
  (forall a b,
     compareClients host
       (handleToggleDirection target
          (handleToggleDirection target sortCriteria)) a b
     = compareClients host sortCriteria a b) /\
  (Forall knownDirection sortCriteria ->
   handleToggleDirection target (handleToggleDirection target sortCriteria)
   = sortCriteria) /\
  handleToggleDirection target (handleToggleDirection target sortCriteria)
  = (fun c =>
       if String.eqb (id c) target
       then {| id := id c; field := field c;
               direction := if String.eqb (direction c) "asc"
                            then "asc" else "desc" |}
       else c) <$> sortCriteria /\
  (forall c,
     c ∈ sortCriteria -> id c = target -> direction c <> "asc" ->
     {| id := id c; field := field c; direction := "desc" |}
     ∈ handleToggleDirection target
         (handleToggleDirection target sortCriteria)) /\
  handleToggleDirection "x" (handleToggleDirection "x" [by_name_sideways])
  = [ {| id := "x"; field := "name"; direction := "desc" |} ].
Proof.
  assert (handleToggleDirection target
            (handleToggleDirection target sortCriteria)
          = (fun c =>
               if String.eqb (id c) target
               then {| id := id c; field := field c;
                       direction := if String.eqb (direction c) "asc"
                                    then "asc" else "desc" |}
               else c) <$> sortCriteria) as Htwice.
  { induction sortCriteria as [|c s IH]; [done|].
    rewrite !handleToggleDirection_cons, IH, fmap_cons. f_equal.
    destruct (String.eqb (id c) target) eqn:Hid; [|by rewrite Hid].
    cbn [id field direction]. rewrite Hid.
    by destruct (String.eqb (direction c) "asc"). }
  split; [|split; [|split; [exact Htwice|split; [|reflexivity]]]].
  - intros a b. clear Htwice. induction sortCriteria as [|c s IH]; [done|].
    rewrite !handleToggleDirection_cons, !compareClients_cons, IH.
    destruct (String.eqb (id c) target) eqn:Hid; [|by rewrite Hid].
    set (c1 := {| id := id c; field := field c;
                  direction := if String.eqb (direction c) "asc"
                               then "desc" else "asc" |}).
    change (String.eqb (id c1) target) with (String.eqb (id c) target).
    rewrite Hid, (directed_toggled host c1). unfold c1.
    by rewrite (directed_toggled host c), numNeg_involutive.
  - clear Htwice. induction 1 as [|c s Hc _ IH]; [done|].
    rewrite !handleToggleDirection_cons, IH. f_equal.
    destruct (String.eqb (id c) target) eqn:Hid; [|by rewrite Hid].
    cbn [id]. rewrite Hid. destruct c as [i f d].
    unfold knownDirection in Hc. simpl in *.
    by destruct Hc as [-> | ->].
  - intros c Hin Hid Hd. rewrite Htwice. apply list_elem_of_fmap.
    exists c. split; [|done].
    apply String.eqb_eq in Hid. apply String.eqb_neq in Hd.
    by rewrite Hid, Hd.
Qed.

(** ** The criteria store: removing *)

Lemma handleRemoveCriterion_cons t c s :
  handleRemoveCriterion t (c :: s)
  = if String.eqb (id c) t then handleRemoveCriterion t s
    else c :: handleRemoveCriterion t s.
Proof.
  unfold handleRemoveCriterion. simpl. by destruct (String.eqb (id c) t).
Qed.

Lemma handleRemoveCriterion_elem t c s :
  c ∈ handleRemoveCriterion t s <-> c ∈ s /\ id c <> t.
Proof.
  unfold handleRemoveCriterion. rewrite !list_elem_of_In, filter_In.
  rewrite negb_true_iff, String.eqb_neq. tauto.
Qed.

Lemma handleRemoveCriterion_not_found t s :
  t ∉ id <$> s -> handleRemoveCriterion t s = s.
Proof.
  induction s as [|c s IH]; [done|]. rewrite fmap_cons, not_elem_of_cons.
  intros [Hc Hs]. rewrite handleRemoveCriterion_cons, IH by done.
  apply not_eq_sym, String.eqb_neq in Hc. by rewrite Hc.
Qed.

Lemma handleRemoveCriterion_sublist t s :
  handleRemoveCriterion t s `sublist_of` s.
Proof.
  induction s as [|c s IH]; [done|]. rewrite handleRemoveCriterion_cons.
  destruct (String.eqb (id c) t); [by apply sublist_cons|by apply sublist_skip].
Qed.

(** X9. Removing by identity leaves no criterion with that identity -
    all of them go if several carry it - and keeps every other criterion,
    in the order they had; it changes nothing when the identity is not
    found, and removing again changes nothing. *)
Theorem handleRemoveCriterion_removes target sortCriteria :
  (target ∉ id <$> handleRemoveCriterion target sortCriteria) /\
  handleRemoveCriterion target sortCriteria `sublist_of` sortCriteria /\
  (forall c, c ∈ sortCriteria -> id c <> target ->
             c ∈ handleRemoveCriterion target sortCriteria) /\
  (target ∉ id <$> sortCriteria ->
   handleRemoveCriterion target sortCriteria = sortCriteria) /\
  handleRemoveCriterion target (handleRemoveCriterion target sortCriteria)
  = handleRemoveCriterion target sortCriteria.
Proof.
  assert (target ∉ id <$> handleRemoveCriterion target sortCriteria) as Hgone.
  { intros Hin. apply list_elem_of_fmap in Hin as (c & Hid & Hc).
    apply handleRemoveCriterion_elem in Hc as [_ Hc]. congruence. }
  split; [done|]. split; [apply handleRemoveCriterion_sublist|].
  split; [|split].
  - intros c Hc Hid. by apply handleRemoveCriterion_elem.
  - apply handleRemoveCriterion_not_found.
  - by apply handleRemoveCriterion_not_found.
Qed.

(** X10. Removing the criterion an addition has just made restores the
    sequence, when the field was not present and the identities of the
    sequence are the store's own. *)
Theorem add_then_remove_restores now f sortCriteria :
  f ∉ field <$> sortCriteria ->
  Forall generatedId sortCriteria ->
  handleRemoveCriterion (newId now f) (handleAddField now f sortCriteria)
  = sortCriteria.
Proof.
  intros Hf Hgen.
  pose proof (newId_fresh now f sortCriteria Hf Hgen) as Hfresh.
  destruct (String.eqb_spec f "") as [->|Hne].
  { unfold handleAddField. simpl.
    by apply handleRemoveCriterion_not_found. }
  rewrite handleAddField_new by done.
  unfold handleRemoveCriterion. rewrite List.filter_app.
  fold (handleRemoveCriterion (newId now f) sortCriteria).
  rewrite handleRemoveCriterion_not_found by done.
  simpl. rewrite String.eqb_refl. simpl. by rewrite app_nil_r.
Qed.

Lemma by_name_then_newest_generated : Forall generatedId by_name_then_newest.
Proof.
  constructor; [by exists 1|]. constructor; [by exists 2|]. constructor.
Qed.

Lemma add_then_remove_restores_witness :
  ("email" ∉ field <$> by_name_then_newest) /\
  Forall generatedId by_name_then_newest /\
  handleRemoveCriterion (newId 1700000000000 "email")
    (handleAddField 1700000000000 "email" by_name_then_newest)
  = by_name_then_newest.
Proof.
  assert ("email" ∉ field <$> by_name_then_newest) as Hf.
  { simpl. rewrite !not_elem_of_cons. split; [discriminate|].
    split; [discriminate|]. apply not_elem_of_nil. }
  split; [exact Hf|]. split; [exact by_name_then_newest_generated|].
  exact (add_then_remove_restores 1700000000000 "email" by_name_then_newest
           Hf by_name_then_newest_generated).
Defined.

(** ** The criteria store: what every operation keeps *)

Lemma handleToggleDirection_fields t s :
  field <$> handleToggleDirection t s = field <$> s.
Proof.
  induction s as [|c s IH]; [done|].
  rewrite handleToggleDirection_cons, !fmap_cons, IH. f_equal.
  by destruct (String.eqb (id c) t).
Qed.

Lemma handleRemoveCriterion_NoDup_fields t s :
  NoDup (field <$> s) -> NoDup (field <$> handleRemoveCriterion t s).
Proof.
  induction s as [|c s IH]; [done|].
  rewrite fmap_cons, handleRemoveCriterion_cons. intros Hnd.
  apply NoDup_cons in Hnd as [Hc Hnd].
  destruct (String.eqb (id c) t); [by apply IH|].
  rewrite fmap_cons. apply NoDup_cons. split; [|by apply IH].
  intros Hin. apply Hc. apply list_elem_of_fmap in Hin as (c' & -> & Hc').
  apply list_elem_of_fmap. exists c'. split; [done|].
  by apply handleRemoveCriterion_elem in Hc' as [? _].
Qed.

Lemma applyOp_NoDup_fields s op :
  NoDup (field <$> s) -> NoDup (field <$> applyOp s op).
Proof.
  intros Hnd. destruct op as [now f|target|target|activeId overId]; simpl.
  - by apply handleAddField_NoDup.
  - by apply handleRemoveCriterion_NoDup_fields.
  - by rewrite handleToggleDirection_fields.
  - by rewrite handleDragEnd_perm.
Qed.

(** X11. Not only additions keep one criterion per field: from a
    sequence in which no two criteria share a field, no run of additions,
    removals, toggles and reorderings leads to one in which two do. *)
Theorem store_keeps_one_criterion_per_field ops sortCriteria :
  NoDup (field <$> sortCriteria) ->
  NoDup (field <$> fold_left applyOp ops sortCriteria).
Proof.
  revert sortCriteria.
  induction ops as [|op ops IH]; intros s Hnd; simpl; [done|].
  by apply IH, applyOp_NoDup_fields.
Qed.

Lemma store_keeps_one_criterion_per_field_witness :
  NoDup (field <$> by_name_then_newest) /\
  NoDup (field <$>
           fold_left applyOp
             [ OpToggle "sort-1-name"; OpAdd 5 "createdAt"; OpAdd 6 "email";
               OpReorder "sort-6-email" (Some "sort-1-name");
               OpRemove "sort-2-createdAt"; OpAdd 7 "createdAt" ]
             by_name_then_newest).
Proof.
  assert (NoDup (field <$> by_name_then_newest)) as Hnd.
  { simpl. apply NoDup_cons. split.
    - rewrite !not_elem_of_cons. split; [discriminate|apply not_elem_of_nil].
    - apply NoDup_singleton. }
  split; [exact Hnd|].
  exact (store_keeps_one_criterion_per_field _ by_name_then_newest Hnd).
Defined.

(** X12. In every sequence the store reaches from the empty one, no two
    criteria have the same identity, no two have the same field, and
    every identity is the one generated for the field of its criterion. *)
Theorem store_identities_are_unique ops :
  NoDup (id <$> runOps ops) /\
  NoDup (field <$> runOps ops) /\
  Forall generatedId (runOps ops).
Proof.
  destruct (runOps_generated ops) as [Hgen Hids].
  split; [done|]. split; [|done].
  unfold runOps. clear Hgen Hids.
  assert (forall s, NoDup (field <$> s) ->
                    NoDup (field <$> fold_left applyOp ops s)) as Hrun.
  { induction ops as [|op ops IH]; intros s Hnd; simpl; [done|].
    by apply IH, applyOp_NoDup_fields. }
  apply Hrun. constructor.
Qed.

(** ** The criteria store: dragging back *)

Lemma findIndex_unique_id (l : list SortCriterion) k c :
  NoDup (id <$> l) -> l !! k = Some c ->
  findIndex (fun x => String.eqb (id x) (id c)) l = Some k.
Proof.
  revert k. induction l as [|y l IH]; intros k Hnd Hk; [done|].
  rewrite fmap_cons in Hnd. apply NoDup_cons in Hnd as [Hy Hnd].
  destruct k as [|k]; simpl in *.
  - inversion Hk; subst. by rewrite String.eqb_refl.
  - destruct (String.eqb_spec (id y) (id c)) as [Heq|_].
    + exfalso. apply Hy. rewrite Heq. apply list_elem_of_fmap.
      exists c. split; [done|]. by eapply list_elem_of_lookup_2.
    + by rewrite (IH k Hnd Hk).
Qed.

Lemma spliceIn_delete_same {A} i (a : A) l :
  l !! i = Some a -> spliceIn i a (delete i l) = l.
Proof.
  intros Hi. pose proof (lookup_lt_Some _ _ _ Hi) as Hlt.
  unfold spliceIn. rewrite delete_take_drop.
  rewrite take_app_length' by (rewrite length_take; lia).
  rewrite drop_app_length' by (rewrite length_take; lia).
  by apply take_drop_middle.
Qed.

Lemma handleDragEnd_found s i j a b :
  NoDup (id <$> s) -> s !! i = Some a -> s !! j = Some b -> i <> j ->
  handleDragEnd (id a) (Some (id b)) s = spliceIn j a (delete i s).
Proof.
  intros Hnd Hi Hj Hij.
  assert (id a <> id b) as Hab.
  { intros Heq. apply Hij.
    apply (NoDup_lookup (id <$> s) i j (id a) Hnd).
    - by rewrite list_lookup_fmap, Hi.
    - by rewrite list_lookup_fmap, Hj, Heq. }
  unfold handleDragEnd.
  rewrite bool_decide_eq_true_2 by congruence.
  rewrite (findIndex_unique_id s i a Hnd Hi), (findIndex_unique_id s j b Hnd Hj).
  by rewrite Hi.
Qed.

(** X13. A drag can be undone by a drag: in a sequence without repeated
    identities, after a criterion was dragged from one position to
    another, dragging it onto the criterion that now lies at its old
    position restores the sequence. *)
Theorem handleDragEnd_undo sortCriteria i j a b :
  NoDup (id <$> sortCriteria) ->
  sortCriteria !! i = Some a ->
  sortCriteria !! j = Some b ->
  i <> j ->
  exists c,
    handleDragEnd (id a) (Some (id b)) sortCriteria !! i = Some c /\
    handleDragEnd (id a) (Some (id c))
      (handleDragEnd (id a) (Some (id b)) sortCriteria)
    = sortCriteria.
Proof.
  intros Hnd Hi Hj Hij.
  pose proof (lookup_lt_Some _ _ _ Hi) as Hilt.
  pose proof (lookup_lt_Some _ _ _ Hj) as Hjlt.
  rewrite (handleDragEnd_found _ _ _ _ _ Hnd Hi Hj Hij).
  set (r := spliceIn j a (delete i sortCriteria)).
  assert (r ≡ₚ sortCriteria) as Hperm by (by apply moved_perm).
  assert (j <= length (delete i sortCriteria))%nat as Hjle.
  { rewrite length_delete by eauto. lia. }
  assert (r !! j = Some a) as Hrj by (by apply spliceIn_lookup).
  assert (delete j r = delete i sortCriteria) as Hdel
    by (by apply delete_spliceIn).
  assert (NoDup (id <$> r)) as Hndr by (by rewrite Hperm).
  destruct (lookup_lt_is_Some_2 r i) as [c Hri].
  { by rewrite Hperm. }
  exists c. split; [done|].
  rewrite (handleDragEnd_found r j i a c Hndr Hrj Hri) by done.
  rewrite Hdel. by apply spliceIn_delete_same.
Qed.

Lemma handleDragEnd_undo_witness :
  NoDup (id <$> (by_name_then_newest ++ [by_created_asc])) /\
  (by_name_then_newest ++ [by_created_asc]) !! 0%nat
    = Some {| id := "sort-1-name"; field := "name"; direction := "asc" |} /\
  (by_name_then_newest ++ [by_created_asc]) !! 2%nat = Some by_created_asc /\
  0%nat <> 2%nat /\
  exists c,
    handleDragEnd "sort-1-name" (Some "sort-3-createdAt")
      (by_name_then_newest ++ [by_created_asc]) !! 0%nat = Some c /\
    handleDragEnd "sort-1-name" (Some (id c))
      (handleDragEnd "sort-1-name" (Some "sort-3-createdAt")
         (by_name_then_newest ++ [by_created_asc]))
    = by_name_then_newest ++ [by_created_asc].
Proof.
  assert (NoDup (id <$> (by_name_then_newest ++ [by_created_asc]))) as Hnd.
  { simpl. repeat (apply NoDup_cons; split;
                   [rewrite ?not_elem_of_cons; repeat split;
                    try discriminate; apply not_elem_of_nil|]).
    constructor. }
  split; [exact Hnd|]. split; [reflexivity|]. split; [reflexivity|].
  split; [discriminate|].
  exact (handleDragEnd_undo (by_name_then_newest ++ [by_created_asc])
           0%nat 2%nat
           {| id := "sort-1-name"; field := "name"; direction := "asc" |}
           by_created_asc Hnd eq_refl eq_refl ltac:(discriminate)).
Defined.

(** ** The panel: the fields on offer and the labels shown *)

Lemma clientFields_ids_NoDup : NoDup (fd_id <$> clientFields).
Proof.
  unfold clientFields. simpl.
  repeat (apply NoDup_cons; split;
          [rewrite ?not_elem_of_cons; repeat split;
           try discriminate; apply not_elem_of_nil|]).
  constructor.
Qed.

Lemma filter_split_length {A} (p : A -> bool) l :
  (length (List.filter p l) + length (List.filter (fun x => negb (p x)) l)
   = length l)%nat.
Proof.
  induction l as [|x l IH]; simpl; [done|].
  destruct (p x); simpl; lia.
Qed.

Lemma NoDup_fmap_filter {A B} (f : A -> B) (p : A -> bool) l :
  NoDup (f <$> l) -> NoDup (f <$> List.filter p l).
Proof.
  induction l as [|x l IH]; [done|]. cbn [List.filter].
  rewrite fmap_cons. intros Hnd. apply NoDup_cons in Hnd as [Hx Hnd].
  destruct (p x); [|by apply IH].
  rewrite fmap_cons. apply NoDup_cons. split; [|by apply IH].
  intros Hin. apply Hx. apply list_elem_of_fmap in Hin as (y & -> & Hy).
  apply list_elem_of_fmap. exists y. split; [done|].
  by apply list_elem_of_In, filter_In in Hy as [?%list_elem_of_In _].
Qed.

Lemma hasDescriptor_elem x :
  hasDescriptor x = true <-> x ∈ fd_id <$> clientFields.
Proof.
  unfold hasDescriptor. rewrite existsb_exists, list_elem_of_fmap. split.
  - intros (f & Hin & Heq). apply String.eqb_eq in Heq.
    exists f. split; [done|]. by apply list_elem_of_In.
  - intros (f & -> & Hin). exists f. split; [by apply list_elem_of_In|].
    apply String.eqb_refl.
Qed.

Lemma availableFields_elem s f :
  f ∈ availableFields s <-> f ∈ clientFields /\ fd_id f ∉ field <$> s.
Proof.
  unfold availableFields.
  rewrite (list_elem_of_In _ f), filter_In, negb_true_iff.
  rewrite <- (list_elem_of_In clientFields f), <- existsb_field.
  by rewrite not_true_iff_false.
Qed.

(** X14. The fields offered for a new criterion are the descriptors no
    criterion uses, in the order of the table.  When the criteria have
    distinct fields, all of the table, the fields on offer and the
    criteria add up to the five descriptors: nothing is on offer exactly
    when five criteria are present. *)
Theorem availableFields_complement sortCriteria :
  (forall f, f ∈ availableFields sortCriteria <->
             f ∈ clientFields /\ fd_id f ∉ field <$> sortCriteria) /\
  availableFields sortCriteria `sublist_of` clientFields /\
  (NoDup (field <$> sortCriteria) ->
   Forall (fun c => hasDescriptor (field c) = true) sortCriteria ->
   (length (availableFields sortCriteria) + length sortCriteria = 5)%nat /\
   (availableFields sortCriteria = [] <-> length sortCriteria = 5%nat)).
Proof.
  split; [apply availableFields_elem|]. split.
  - unfold availableFields. induction clientFields as [|f l IH]; simpl; [done|].
    destruct (negb _); [by apply sublist_skip|by apply sublist_cons].
  - intros Hnd Htable.
    set (used f := existsb (fun c => String.eqb (field c) (fd_id f)) sortCriteria).
    assert (fd_id <$> List.filter used clientFields ≡ₚ field <$> sortCriteria)
      as Hperm.
    { apply NoDup_Permutation;
        [apply NoDup_fmap_filter, clientFields_ids_NoDup|done|].
      intros x. rewrite list_elem_of_fmap. split.
      - intros (f & -> & Hf).
        apply list_elem_of_In, filter_In in Hf as [_ Hf].
        by apply existsb_field in Hf.
      - intros Hx. rewrite Forall_forall in Htable.
        pose proof Hx as Hx'.
        apply list_elem_of_fmap in Hx' as (c & -> & Hc).
        apply Htable, hasDescriptor_elem, list_elem_of_fmap in Hc
          as (f & Hfc & Hf).
        exists f. split; [done|].
        apply list_elem_of_In, filter_In. split; [by apply list_elem_of_In|].
        unfold used. apply existsb_field. by rewrite <- Hfc. }
    apply Permutation_length in Hperm. rewrite !length_fmap in Hperm.
    pose proof (filter_split_length used clientFields) as Hsplit.
    change (List.filter (fun x => negb (used x)) clientFields)
      with (availableFields sortCriteria) in Hsplit.
    change (length clientFields) with 5%nat in Hsplit.
    split; [lia|].
    rewrite <- length_zero_iff_nil. lia.
Qed.

(** X15. The label shown for a criterion is the label of the descriptor of
    its field, and the field identifier itself when the table has no such
    descriptor (as a restored criterion may have); it is never empty for a
    non-empty field, and two criteria on fields of the table have the
    same label only if they have the same field. *)
Theorem fieldLabel_of_criterion :
  (forall c f, f ∈ clientFields -> field c = fd_id f -> fieldLabel c = label f) /\
  (forall c, hasDescriptor (field c) = false -> fieldLabel c = field c) /\
  (forall c, field c <> "" -> fieldLabel c <> "") /\
  (forall c c', hasDescriptor (field c) = true ->
                hasDescriptor (field c') = true ->
                fieldLabel c = fieldLabel c' -> field c = field c').
Proof.
  assert (forall c,
            (field c = "name" /\ fieldLabel c = "Name") \/
            (field c = "email" /\ fieldLabel c = "Email") \/
            (field c = "createdAt" /\ fieldLabel c = "Created At") \/
            (field c = "updatedAt" /\ fieldLabel c = "Updated At") \/
            (field c = "status" /\ fieldLabel c = "Status") \/
            (hasDescriptor (field c) = false /\ fieldLabel c = field c))
    as Hcases.
  { intros c. unfold fieldLabel, hasDescriptor, clientFields.
    cbn [List.find existsb fd_id label].
    rewrite !(String.eqb_sym _ (field c)).
    destruct (String.eqb_spec (field c) "name") as [->|?];
      [cbn; solve [repeat (first [left; split; reflexivity | right])]|].
    destruct (String.eqb_spec (field c) "email") as [->|?];
      [cbn; solve [repeat (first [left; split; reflexivity | right])]|].
    destruct (String.eqb_spec (field c) "createdAt") as [->|?];
      [cbn; solve [repeat (first [left; split; reflexivity | right])]|].
    destruct (String.eqb_spec (field c) "updatedAt") as [->|?];
      [cbn; solve [repeat (first [left; split; reflexivity | right])]|].
    destruct (String.eqb_spec (field c) "status") as [->|?];
      [cbn; solve [repeat (first [left; split; reflexivity | right])]|].
    cbn. do 5 right. by split. }
  split; [|split; [|split]].
  - intros c f Hf Hfield. unfold clientFields in Hf.
    rewrite !elem_of_cons, elem_of_nil in Hf.
    destruct (Hcases c) as [[H1 H2]|[[H1 H2]|[[H1 H2]|[[H1 H2]|[[H1 H2]|[H1 H2]]]]]];
      destruct Hf as [->|[->|[->|[->|[->|[]]]]]]; simpl in *;
      try congruence; try (rewrite Hfield in H1; by vm_compute in H1).
  - intros c Hd.
    destruct (Hcases c) as [[H1 H2]|[[H1 H2]|[[H1 H2]|[[H1 H2]|[[H1 H2]|[H1 H2]]]]]];
      try done; rewrite H1 in Hd; by vm_compute in Hd.
  - intros c Hne.
    destruct (Hcases c) as [[H1 H2]|[[H1 H2]|[[H1 H2]|[[H1 H2]|[[H1 H2]|[H1 H2]]]]]];
      rewrite H2; try discriminate; done.
  - intros c c' Hd Hd' Heq.
    destruct (Hcases c) as [[H1 H2]|[[H1 H2]|[[H1 H2]|[[H1 H2]|[[H1 H2]|[H1 H2]]]]]];
      destruct (Hcases c') as [[H1' H2']|[[H1' H2']|[[H1' H2']|[[H1' H2']|[[H1' H2']|[H1' H2']]]]]];
      try congruence; rewrite H2, H2' in Heq; discriminate.
Qed.

(** ** The evaluator: the order of the input *)

Lemma distinct_positions_perm {A} (P : A -> A -> Prop) (l l' : list A) :
  l ≡ₚ l' ->
  (forall i j a b, i <> j -> l !! i = Some a -> l !! j = Some b -> P a b) ->
  forall i j a b, i <> j -> l' !! i = Some a -> l' !! j = Some b -> P a b.
Proof.
  intros Hperm Hl i j a b Hij Hi Hj. symmetry in Hperm.
  apply Permutation_inj in Hperm as [_ (g & Hinj & Hg)].
  apply (Hl (g i) (g j)); [|by rewrite <- Hg..].
  intros Heq. by apply Hinj in Heq.
Qed.

Lemma applyMultiSort_numbers_sorted host clients criteria :
  Consistent (localeCompare host) ->
  (forall i j a b, i <> j -> clients !! i = Some a -> clients !! j = Some b ->
     exists z, compareClients host criteria a b = Num z /\ z <> 0) ->
  StronglySorted (fun a b => refCompare host criteria a b <= 0)
    (applyMultiSort host clients criteria).
Proof.
  intros Hc Hno. unfold applyMultiSort. destruct criteria as [|c cs].
  - simpl. apply StronglySorted_split. intros l1 a l2 Heq.
    apply Forall_forall. intros; simpl; lia.
  - cbn [length Nat.eqb]. rewrite (jsSort_numbers host (c :: cs) clients Hc).
    + apply jsSort_sorted. by apply refCompare_consistent.
    + intros i j a b Hij Hi Hj.
      destruct (Hno i j a b Hij Hi Hj) as (z & Hz & _). by exists z.
Qed.

(** X16. When the criteria tell all records apart - any two records at
    different positions compare as a number other than zero - the output
    depends on which records are given, not on the order they are given
    in. *)
Theorem applyMultiSort_input_order host clients clients' criteria :
  Consistent (localeCompare host) ->
  clients ≡ₚ clients' ->
  (forall i j a b, i <> j -> clients !! i = Some a -> clients !! j = Some b ->
     exists z, compareClients host criteria a b = Num z /\ z <> 0) ->
  applyMultiSort host clients criteria = applyMultiSort host clients' criteria.
Proof.
  intros Hc Hperm Hno.
  pose proof (refCompare_consistent host Hc criteria) as Hcc.
  apply (StronglySorted_unique_strong
           (fun a b => refCompare host criteria a b <= 0)).
  - intros x1 x2 Hx1 Hx2 H12 H21.
    rewrite applyMultiSort_perm in Hx1.
    rewrite applyMultiSort_perm, <- Hperm in Hx2.
    apply (tie_same_position
             (fun a b => refCompare host criteria a b = 0) clients);
      [|done..|].
    + intros i j a b Hij Hi Hj H0.
      destruct (Hno i j a b Hij Hi Hj) as (z & Hz & Hnz).
      apply compareClients_num_ref in Hz. congruence.
    + pose proof (compare_gt_lt _ Hcc x2 x1). lia.
  - by apply applyMultiSort_numbers_sorted.
  - apply applyMultiSort_numbers_sorted; [done|].
    by apply (distinct_positions_perm _ clients clients').
  - by rewrite !applyMultiSort_perm.
Qed.

Lemma applyMultiSort_input_order_witness :
  Consistent (localeCompare codeUnitHost) /\
  [bob; amy_new; pre_epoch] ≡ₚ [pre_epoch; bob; amy_new] /\
  (forall i j a b, i <> j ->
     [bob; amy_new; pre_epoch] !! i = Some a ->
     [bob; amy_new; pre_epoch] !! j = Some b ->
     exists z,
       compareClients codeUnitHost [by_name_desc] a b = Num z /\ z <> 0) /\
  applyMultiSort codeUnitHost [bob; amy_new; pre_epoch] [by_name_desc]
  = applyMultiSort codeUnitHost [pre_epoch; bob; amy_new] [by_name_desc].
Proof.
  assert ([bob; amy_new; pre_epoch] ≡ₚ [pre_epoch; bob; amy_new]) as Hperm.
  { apply (Permutation_app_comm [bob; amy_new] [pre_epoch]). }
  assert (forall i j a b, i <> j ->
            [bob; amy_new; pre_epoch] !! i = Some a ->
            [bob; amy_new; pre_epoch] !! j = Some b ->
            exists z,
              compareClients codeUnitHost [by_name_desc] a b = Num z /\
              z <> 0) as Hno.
  { intros [|[|[|i]]] [|[|[|j]]] a b Hij Hi Hj; simpl in Hi, Hj;
      try done; inversion Hi; inversion Hj; subst;
      eexists; (split; [vm_compute; reflexivity|done]). }
  split; [exact codeUnitHost_consistent|]. split; [exact Hperm|].
  split; [exact Hno|].
  exact (applyMultiSort_input_order codeUnitHost _ _ [by_name_desc]
           codeUnitHost_consistent Hperm Hno).
Defined.

(** ** Saving and loading: sequences of any origin *)

Lemma expectedProps_object props :
  expectedProps (JObject props) = Some (truthyElement (JObject props)).
Proof.
  unfold expectedProps, getProp, truthyElement.
  destruct (truthy (assoc "id" props)); [|done].
  by destruct (truthy (assoc "field" props)).
Qed.

Lemma truthyElement_criterionJson_iff c :
  truthyElement (criterionJson c) = true <-> nonEmptyProps c.
Proof.
  unfold truthyElement, criterionJson, nonEmptyProps. simpl.
  rewrite !andb_true_iff, !negb_true_iff, !String.eqb_neq. tauto.
Qed.

Lemma every_criterionJson s :
  every expectedProps (criterionJson <$> s)
  = Some (bool_decide (Forall nonEmptyProps s)).
Proof.
  induction s as [|c s IH]; [done|].
  rewrite fmap_cons. cbn [every]. unfold criterionJson at 1.
  rewrite expectedProps_object. fold (criterionJson c).
  pose proof (truthyElement_criterionJson_iff c) as Hc.
  destruct (truthyElement (criterionJson c)).
  - rewrite IH. f_equal. apply bool_decide_ext. rewrite Forall_cons. tauto.
  - f_equal. symmetry. apply bool_decide_eq_false. rewrite Forall_cons.
    intros [Hne _]. apply Hc in Hne. done.
Qed.

(** X17. A saved sequence survives a reload exactly when none of its
    criteria has an empty identity, field or direction.  Otherwise the
    load effect discards the whole sequence, with a warning: the criteria
    are empty after the reload and the stored item is removed. *)
Theorem save_then_load sortCriteria :
  (Forall nonEmptyProps sortCriteria ->
   loadCriteria (saveCriteria sortCriteria)
   = Restored (criterionJson <$> sortCriteria)) /\
  (~ Forall nonEmptyProps sortCriteria ->
   loadCriteria (saveCriteria sortCriteria) = DiscardedWarn /\
   criteriaAfterLoad (loadCriteria (saveCriteria sortCriteria)) = [] /\
   storageAfterLoad (saveCriteria sortCriteria)
     (loadCriteria (saveCriteria sortCriteria)) = NoItem).
Proof.
  unfold saveCriteria. rewrite loadCriteria_array, every_criterionJson.
  split; intros Hall.
  - by rewrite bool_decide_eq_true_2.
  - by rewrite bool_decide_eq_false_2.
Qed.

Example empty_identity_is_lost_on_reload :
  loadCriteria
    (saveCriteria
       [ {| id := "sort-1-name"; field := "name"; direction := "asc" |};
         {| id := ""; field := "email"; direction := "asc" |} ])
  = DiscardedWarn.
Proof. reflexivity. Qed.

(** X18. The load effect leaves the storage in a state it accepts: a
    second load finds nothing to discard, changes the storage no more,
    and yields the same criteria as the first. *)
Theorem load_settles_storage item :
  let first := loadCriteria item in
  let stored := storageAfterLoad item first in
  criteriaAfterLoad (loadCriteria stored) = criteriaAfterLoad first /\
  storageAfterLoad stored (loadCriteria stored) = stored /\
  loadCriteria stored <> DiscardedWarn /\
  loadCriteria stored <> DiscardedError.
Proof.
  intros first stored. unfold stored, first.
  destruct (loadCriteria item) eqn:Hload; simpl.
  - rewrite Hload. simpl. by repeat split.
  - by repeat split.
  - by repeat split.
  - rewrite Hload. simpl. by repeat split.
Qed.

(** X19. Validation stops at the first element that is not an object
    with truthy [id], [field] and [direction], and that element decides
    how the value is discarded: with a logged error when it is [null]
    (the property read throws), with a warning otherwise - whatever
    follows it, a [null] included. *)
Theorem load_first_offender valid c rest :
  forallb truthyElement valid = true ->
  truthyElement c = false ->
  loadCriteria (JsonText (JArray (valid ++ c :: rest)))
  = match c with
    | JNull => DiscardedError
    | _ => DiscardedWarn
    end.
Proof.
  intros Hvalid Hc. rewrite loadCriteria_array.
  assert (every expectedProps (valid ++ c :: rest)
          = match expectedProps c with
            | Some true => every expectedProps rest
            | other => other
            end) as ->.
  { clear Hc. induction valid as [|v valid IH]; simpl.
    - by destruct (expectedProps c) as [[|]|].
    - simpl in Hvalid. apply andb_prop in Hvalid as [Hv Hvalid].
      apply expectedProps_truthy in Hv. rewrite Hv. by apply IH. }
  destruct c as [|b|n|t|items|props]; try reflexivity.
  rewrite expectedProps_object, Hc. reflexivity.
Qed.

Lemma load_first_offender_witness :
  forallb truthyElement [rogue_element] = true /\
  truthyElement (JObject []) = false /\
  loadCriteria (JsonText (JArray ([rogue_element] ++ JObject [] :: [JNull])))
  = DiscardedWarn.
Proof.
  split; [reflexivity|]. split; [reflexivity|].
  exact (load_first_offender [rogue_element] (JObject []) [JNull]
           eq_refl eq_refl).
Defined.
